(** * cel-go: instruction programs and attribute resolution

    A shallow embedding of [interpreter/program.go] (planning, constant
    folding, instruction lookup, source locations) and of the attribute
    resolver of the same package ([defaultResolver], [unknownResolver]),
    followed by the properties established about them.

    Conventions.
    - Go integers are carried as [Z]; where the source computes on a
      fixed-width type the wrap-around is written out ([wrap32]).
    - A Go map is a [gmap]; a slice is a [list], and a slice-typed field
      that the source compares with [nil] is an [option (list _)].
    - A run-time panic of the Go code is the [Fault] outcome of [Result]. *)

From Stdlib Require Import ZArith Lia.
From stdpp Require Import base option list gmap strings.

Set Warnings "-register-all".
#[local] Open Scope Z_scope.

(** ** Outcomes of Go code that may panic *)

Inductive Panic : Type :=
| NilDereference        (* invalid memory address or nil pointer dereference *)
| IndexOutOfRange       (* index out of range *)
| MakeSliceLen.         (* makeslice: len out of range *)

Inductive Result (A : Type) : Type :=
| Ret (a : A)
| Fault (p : Panic).
Arguments Ret {A} a.
Arguments Fault {A} p.

#[global] Instance Result_ret : MRet Result := fun _ a => Ret a.
#[global] Instance Result_bind : MBind Result := fun _ _ f m =>
  match m with
  | Ret a => f a
  | Fault p => Fault p
  end.

Ltac unbind := unfold mbind, Result_bind in *.

(** ** Package [types]: the CEL value model ([ref.Val]) *)

Module types.

(** Modelled from the spec: the declarations of package [types] are not
    among the sources.  A [ref.Val] is one of the scalar values, an error
    sentinel ([*types.Err], built by [NewErr] from a format and its
    arguments), an unknown sentinel ([types.Unknown], a list of expression
    ids), a value "exposing an indexing capability" ([traits.Indexer],
    named by a handle, its [Get] being [IndexerGet] below) or any other
    value (named by a handle). *)
Inductive Val : Type :=
| String (s : string)
| Int (n : Z)
| Bool (b : bool)
| Double (bits : Z)
| Null
| Err (format : string) (args : list string)
| Unknown (ids : list Z)
| Indexer (h : positive)
| Other (h : positive).

Definition NewErr (format : string) (args : list string) : Val := Err format args.
Definition True : Val := Bool true.
Definition NullValue : Val := Null.

(** The operations of the value library that the sources call but do not
    define: [types.ValOrErr], [traits.Indexer.Get], [ref.Val.Equal] and
    [ref.Type.HasTrait] (through [arg.Type().HasTrait(trait)]). *)
Class Lib : Type := {
  ValOrErr : Val -> string -> Val;
  IndexerGet : positive -> Val -> Val;
  Equal : Val -> Val -> Val;
  HasTrait : Val -> Z -> bool
}.

End types.

(** ** [interpreter/program.go] *)

Module Program.

(** Operator and overload names (packages [operators] and [overloads]). *)
Module operators.
(** Modelled from the spec: the names of the logical operators and of the
    "not-strictly-false guard" are constants of a package that is not
    among the sources; only their being distinct names matters here. *)
Definition LogicalAnd : string := "_&&_".
Definition LogicalOr : string := "_||_".
Definition NotStrictlyFalse : string := "@not_strictly_false".
Definition OldNotStrictlyFalse : string := "__not_strictly_false__".
End operators.

Module overloads.
(** Modelled from the spec: the names of the iteration protocol
    ("iterator has-next/next"), constants of a package that is not among
    the sources. *)
Definition Iterator : string := "@iterator".
Definition HasNext : string := "@hasNext".
Definition Next : string := "@next".
End overloads.

(** [programFlag] and its values. *)
Definition programFlagTrackState : Z := 1.
Definition programFlagNoShortCircuit : Z := 2.
Definition programFlagExhaustive : Z :=
  Z.lor programFlagTrackState programFlagNoShortCircuit.

(** Modelled from the spec: an expression node is "identified by a unique
    integer id; kind ∈ {literal, identifier, select, call, list, map,
    struct, comprehension}"; [exprpb.Expr] is not among the sources. *)
Inductive ExprKind : Type :=
| LiteralKind | IdentKind | SelectKind | CallKind
| ListKind | MapKind | StructKind | ComprehensionKind.

Inductive Expr : Type :=
| mkExpr (Id : Z) (kind : ExprKind) (sub : list Expr).

Definition Id (e : Expr) : Z := match e with mkExpr id _ _ => id end.

(** Modelled from the spec: a function implementation "exposes
    unary/binary/variadic call forms and an optional required operand
    trait"; a call form that is not set is a nil function value. *)
Record Overload : Type := {
  OperandTrait : Z;
  Unary : option (types.Val -> types.Val);
  Binary : option (types.Val -> types.Val -> types.Val);
  Function_ : option (list types.Val -> types.Val)
}.

(** [CallExpr], with the fields that [program.go] reads and writes. *)
Record CallExpr : Type := {
  ID : Z;
  Function : string;
  Args : list Z;
  Impl : option Overload
}.

(** Modelled from the spec: the instruction "variants: push-literal,
    select-attribute, call(function, args, optional bound implementation,
    optional required trait), conditional/unconditional jump, enter-scope,
    exit-scope", each carrying "its originating expression id".
    [program.go] names three of them: [*PushScopeInst], [*PopScopeInst]
    and [*CallExpr]. *)
Inductive Instruction : Type :=
| PushLiteralInst (id : Z) (value : types.Val)
| SelectAttrInst (id : Z) (name : string)
| CallExprInst (call : CallExpr)
| JumpInst (id : Z) (count : Z) (cond : option (Z * types.Val))
| PushScopeInst (id : Z)
| PopScopeInst (id : Z).

Definition GetID (inst : Instruction) : Z :=
  match inst with
  | PushLiteralInst id _ | SelectAttrInst id _ | JumpInst id _ _
  | PushScopeInst id | PopScopeInst id => id
  | CallExprInst call => ID call
  end.

Definition isJump (inst : Instruction) : bool :=
  match inst with JumpInst _ _ _ => true | _ => false end.

(** Modelled from the spec: the scratch state is a "transient
    per-evaluation mapping from expression id to computed value"; an id
    without a value reads as [nil]. *)
Record evalState : Type := { values : gmap Z types.Val }.

Definition setValue (state : evalState) (id : Z) (v : types.Val) : evalState :=
  {| values := <[id := v]> (values state) |}.

(** [exprpb.SourceInfo], the two tables that [exprMetadata] reads: the
    line offsets ([[]int32]) and the positions ([map[int64]int32]). *)
Record SourceInfo : Type := {
  LineOffsets : list Z;
  Positions : gmap Z Z
}.

Record exprMetadata : Type := { info : SourceInfo }.

Definition newExprMetadata (i : SourceInfo) : exprMetadata := {| info := i |}.

(** [Program].  [refMap] is neither read nor written by [program.go] and
    is left out. *)
Record Program : Type := {
  expression : Expr;
  Instructions : option (list Instruction);
  metadata : exprMetadata;
  revInstructions : gmap Z Z;
  flags : Z;
  resultID : Z
}.

Definition NewProgram (e : Expr) (i : SourceInfo) : Program :=
  {| expression := e; Instructions := None; metadata := newExprMetadata i;
     revInstructions := ∅; flags := 0; resultID := 0 |}.

Definition NewExhaustiveProgram (e : Expr) (i : SourceInfo) : Program :=
  {| expression := e; Instructions := None; metadata := newExprMetadata i;
     revInstructions := ∅; flags := programFlagExhaustive; resultID := 0 |}.

(** The tree walker [WalkExpr(expression, metadata, state, shortcircuit)]
    is not among the sources: it is a parameter.  It returns the
    instruction slice (possibly [nil]) and may write to the scratch
    state. *)
Class Walker : Type := {
  WalkExpr : Expr -> exprMetadata -> evalState -> bool ->
             option (list Instruction) * evalState
}.

(** [GetInstruction]: [p.Instructions[p.revInstructions[runtimeID]]]. A
    map read of an absent key gives the zero value [0]. *)
Definition index {A} (l : option (list A)) (i : Z) : Result A :=
  if i <? 0 then Fault IndexOutOfRange
  else match default [] l !! Z.to_nat i with
       | Some a => Ret a
       | None => Fault IndexOutOfRange
       end.

Definition GetInstruction (p : Program) (runtimeID : Z) : Result Instruction :=
  index (Instructions p) (default 0 (revInstructions p !! runtimeID)).

(** The loop [for i, inst := range p.Instructions
    { p.revInstructions[inst.GetID()] = i }]. *)
Fixpoint indexInstructions (insts : list Instruction) (i : Z)
         (rev : gmap Z Z) : gmap Z Z :=
  match insts with
  | [] => rev
  | inst :: rest => indexInstructions rest (i + 1) (<[GetID inst := i]> rev)
  end.

Section Planning.
Context `{Walker}.

Definition plan (p : Program) (state : evalState) : Program * evalState :=
  match Instructions p with
  | None =>
      let shortcircuit := Z.land (flags p) programFlagNoShortCircuit =? 0 in
      let '(insts, state') :=
        WalkExpr (expression p) (metadata p) state shortcircuit in
      ({| expression := expression p;
          Instructions := insts;
          metadata := metadata p;
          revInstructions :=
            indexInstructions (default [] insts) 0 (revInstructions p);
          flags := flags p;
          resultID := Id (expression p) |}, state')
  | Some _ => (p, state)
  end.
End Planning.

(** *** Constant folding *)

Section Folding.
Context `{types.Lib}.

(** The [switch call.Function] of [maybeComputeConstCall]: the calls of the
    iteration protocol are never computed ahead of time. *)
Definition isIterationCall (fn : string) : bool :=
  String.eqb fn operators.NotStrictlyFalse
  || String.eqb fn operators.OldNotStrictlyFalse
  || String.eqb fn overloads.Iterator
  || String.eqb fn overloads.HasNext
  || String.eqb fn overloads.Next.

(** [call.Impl.OperandTrait != 0 && !arg0.Type().HasTrait(call.Impl.OperandTrait)] *)
Definition lacksTrait (impl : Overload) (arg0 : types.Val) : bool :=
  negb (OperandTrait impl =? 0) && negb (types.HasTrait arg0 (OperandTrait impl)).

(** [maybeComputeConstCall]: the result says whether the call was computed;
    the state is the scratch state after the call.  Invoking a call form
    that the implementation does not have is a call of a nil function. *)
Definition maybeComputeConstCall (call : CallExpr) (state : evalState)
  : Result (bool * evalState) :=
  match Impl call with
  | None => Ret (false, state)
  | Some impl =>
      if isIterationCall (Function call) then Ret (false, state)
      else
        match Args call with
        | [a0] =>
            match values state !! a0 with
            | None => Ret (false, state)
            | Some arg0 =>
                if lacksTrait impl arg0 then Ret (false, state)
                else
                  match Unary impl with
                  | None => Fault NilDereference
                  | Some unary => Ret (true, setValue state (ID call) (unary arg0))
                  end
            end
        | [a0; a1] =>
            match values state !! a0, values state !! a1 with
            | Some arg0, Some arg1 =>
                if lacksTrait impl arg0 then Ret (false, state)
                else
                  match Binary impl with
                  | None => Fault NilDereference
                  | Some binary =>
                      Ret (true, setValue state (ID call) (binary arg0 arg1))
                  end
            | _, _ => Ret (false, state)
            end
        | _ => Ret (false, state)
        end
  end.

Definition isLogical (fn : string) : bool :=
  String.eqb fn operators.LogicalAnd || String.eqb fn operators.LogicalOr.

(** The first loop of [computeConstExprs]: [i] is the index of the head of
    [instructions] in the whole sequence, [nested] the scope counter and
    [constInsts] the indices collected so far. *)
Fixpoint scan (instructions : list Instruction) (i nested : Z)
         (constInsts : list Z) (state : evalState)
  : Result (list Z * evalState) :=
  match instructions with
  | [] => Ret (constInsts, state)
  | inst :: rest =>
      match inst with
      | PushScopeInst _ => scan rest (i + 1) (nested + 1) constInsts state
      | PopScopeInst _ => scan rest (i + 1) (nested - 1) constInsts state
      | CallExprInst call =>
          if negb (nested =? 0) then scan rest (i + 1) nested constInsts state
          else
            '(computed, state') ← maybeComputeConstCall call state;
            if (computed : bool) then
              let constInsts' :=
                if isLogical (Function call)
                then constInsts ++ [i - 1]   (* the jump condition *)
                else constInsts in
              scan rest (i + 1) nested (constInsts' ++ [i]) state'
            else scan rest (i + 1) nested constInsts state'
      | _ => scan rest (i + 1) nested constInsts state
      end
  end.

(** [n] rounds of [optInsts[oi] = instructions[i]; oi++; i++], where
    [optInsts] was made with length [optInstsCnt].  The slots of [optInsts]
    are written in increasing order from [0], so the slice is kept as the
    list of the slots written so far; writing slot [oi] is in range when
    [oi < optInstsCnt]. *)
Fixpoint copyInsts (instructions : list Instruction) (optInstsCnt : Z)
         (n : nat) (i oi : Z) (optInsts : list Instruction)
  : Result (Z * Z * list Instruction) :=
  match n with
  | O => Ret (i, oi, optInsts)
  | S n' =>
      inst ← index (Some instructions) i;
      if (oi <? 0) || (optInstsCnt <=? oi) then Fault IndexOutOfRange
      else copyInsts instructions optInstsCnt n' (i + 1) (oi + 1) (optInsts ++ [inst])
  end.

(** The loop [for _, j := range constInsts { for i < j { ... }; i = j + 1 }];
    the inner loop runs [j - i] times (not at all when [j <= i]). *)
Fixpoint skipConsts (instructions : list Instruction) (optInstsCnt : Z)
         (constInsts : list Z) (i oi : Z) (optInsts : list Instruction)
  : Result (Z * Z * list Instruction) :=
  match constInsts with
  | [] => Ret (i, oi, optInsts)
  | j :: rest =>
      '(_, oi', optInsts') ←
        copyInsts instructions optInstsCnt (Z.to_nat (j - i)) i oi optInsts;
      skipConsts instructions optInstsCnt rest (j + 1) oi' optInsts'
  end.

(** One pass of [computeConstExprs], up to the recursive call: either no
    constant call was met and the function returns ([Stop]), or the
    surviving instructions were copied to a new slice ([Next]). *)
Inductive Pass : Type :=
| Stop (state : evalState)
| Next (optInsts : list Instruction) (state : evalState).

Definition pass (instructions : list Instruction) (state : evalState)
  : Result Pass :=
  '(constInsts, state') ← scan instructions 0 0 [] state;
  let constInstsCnt := Z.of_nat (length constInsts) in
  if constInstsCnt =? 0 then Ret (Stop state')
  else
    let optInstsCnt := Z.of_nat (length instructions) - constInstsCnt in
    if optInstsCnt <? 0 then Fault MakeSliceLen
    else
      '(i, oi, optInsts) ←
        skipConsts instructions optInstsCnt constInsts 0 0 [];
      '(_, _, optInsts') ←
        copyInsts instructions optInstsCnt (Z.to_nat (optInstsCnt - oi)) i oi optInsts;
      Ret (Next optInsts' state').

Definition setInstructions (p : Program) (insts : list Instruction) : Program :=
  {| expression := expression p; Instructions := Some insts;
     metadata := metadata p; revInstructions := revInstructions p;
     flags := flags p; resultID := resultID p |}.

(** [computeConstExprs], the recursion unrolled at most [fuel] times:
    [None] when the fuel does not suffice. *)
Fixpoint computeConstExprs_fuel (fuel : nat) (p : Program) (state : evalState)
  : option (Result (Program * evalState)) :=
  match Instructions p with
  | None => Some (Ret (p, state))
  | Some instructions =>
      match fuel with
      | O => None
      | S fuel' =>
          match pass instructions state with
          | Fault e => Some (Fault e)
          | Ret (Stop state') => Some (Ret (p, state'))
          | Ret (Next optInsts state') =>
              computeConstExprs_fuel fuel' (setInstructions p optInsts) state'
          end
      end
  end.

(** [computeConstExprs]: one more round than there are instructions is
    always enough, since every round that goes on shortens the sequence. *)
Definition computeConstExprs (p : Program) (state : evalState)
  : option (Result (Program * evalState)) :=
  computeConstExprs_fuel (S (length (default [] (Instructions p)))) p state.

End Folding.

(** *** Operator binding *)

(** [Dispatcher], by its one method used here: [FindOverload(name)]. *)
Record Dispatcher : Type := { FindOverload : string -> option Overload }.

(** The body of the loop of [bindOperators]: a call whose function the
    dispatcher knows gets that implementation; anything else is left as it
    is.  The source writes [call.Impl] through the pointer held in the
    slice, so the slice keeps its length and order. *)
Definition bindOperator (disp : Dispatcher) (inst : Instruction) : Instruction :=
  match inst with
  | CallExprInst call =>
      match FindOverload disp (Function call) with
      | None => inst
      | Some fn =>
          CallExprInst {| ID := ID call; Function := Function call;
                          Args := Args call; Impl := Some fn |}
      end
  | _ => inst
  end.

Definition bindOperators (disp : Dispatcher) (p : Program) : Program :=
  match Instructions p with
  | None => p
  | Some insts => setInstructions p (bindOperator disp <$> insts)
  end.

(** *** Source locations *)

Record Location : Type := { Line : Z; Column : Z }.

Definition NewLocation (line column : Z) : Location :=
  {| Line := line; Column := column |}.

(** Arithmetic on [int32] wraps around. *)
Definition wrap32 (z : Z) : Z := (z + 2 ^ 31) mod 2 ^ 32 - 2 ^ 31.

Definition IDOffset (m : exprMetadata) (exprID : Z) : Z * bool :=
  match Positions (info m) !! exprID with
  | Some position => (position, true)
  | None => (0, false)
  end.

(** The loop [for index, lineOffset = range m.info.LineOffsets] of
    [IDLocation]: both loop variables are assigned at the start of every
    round, before the test that may leave the loop.  The result is the pair
    ([lineIndex], [lineOffset]) after the loop. *)
Fixpoint lineLoop (offsets : list Z) (exprOffset : Z)
         (index lineIndex lineOffset : Z) : Z * Z :=
  match offsets with
  | [] => (lineIndex, lineOffset)
  | offset :: rest =>
      if offset >? exprOffset then (lineIndex, offset)
      else lineLoop rest exprOffset (index + 1) index offset
  end.

Definition IDLocation (m : exprMetadata) (exprID : Z) : option Location * bool :=
  let '(exprOffset, found) := IDOffset m exprID in
  if found then
    let '(lineIndex, lineOffset) :=
      lineLoop (LineOffsets (info m)) exprOffset 0 0 0 in
    let line := lineIndex + 1 in
    let column := wrap32 (exprOffset - lineOffset) in
    (Some (NewLocation line column), true)
  else (None, false).

End Program.

(** ** The attribute resolver *)

Module Resolver.

(** [reflect.Kind] *)
Inductive Kind : Type :=
| Invalid | KBool | KInt | KInt8 | KInt16 | KInt32 | KInt64
| KUint | KUint8 | KUint16 | KUint32 | KUint64 | KUintptr
| KFloat32 | KFloat64 | KComplex64 | KComplex128
| KArray | KChan | KFunc | KInterface | KMap | KPtr | KSlice | KString
| KStruct | KUnsafePointer.

(** [*structpb.Value]: a nil pointer, a value whose [Kind] is not set, or one
    of the six kinds.  A [Struct] is its field map, a [ListValue] its
    values.  Floating-point numbers are carried by their bit patterns; the
    resolver never computes on them. *)
Inductive PbValue : Type :=
| Value_nil
| Value_unset
| Value_NullValue
| Value_NumberValue (bits : Z)
| Value_StringValue (s : string)
| Value_BoolValue (b : bool)
| Value_StructValue (fields : gmap string PbValue)
| Value_ListValue (values : list PbValue).

(** [proto.Message], by the cases of [getProtoField].  An [Any] is a nil
    pointer or a type URL with what [ptypes.UnmarshalAny] makes of it
    ([None] when unmarshalling fails); any other message is a handle. *)
Inductive Message : Type :=
| Any_nil
| Any (typeUrl : string) (unpacked : option Message)
| Value (v : PbValue)
| Struct (fields : gmap string PbValue)
| ListValue (values : list PbValue)
| OtherMessage (h : positive).

(** The dynamic values ([interface{}]) that [getElem] receives, by the first
    case of its type switch that their dynamic type matches; the values
    that reach the default case are the nil interface, the Go scalars and
    any other native value, given with its [reflect.Kind]. *)
Inductive Obj : Type :=
| Nil
| MapIface (m : gmap string Obj)        (* map[string]interface{} *)
| MapStr (m : gmap string string)       (* map[string]string *)
| MapFloat32 (m : gmap string Z)
| MapFloat64 (m : gmap string Z)
| MapInt (m : gmap string Z)
| MapInt32 (m : gmap string Z)
| MapInt64 (m : gmap string Z)
| MapBool (m : gmap string bool)
| ListIface (l : list Obj)              (* []interface{} *)
| ListStr (l : list string)
| ListFloat32 (l : list Z)
| ListFloat64 (l : list Z)
| ListInt (l : list Z)
| ListInt32 (l : list Z)
| ListInt64 (l : list Z)
| Proto (msg : Message)                 (* proto.Message *)
| Ref (v : types.Val)                   (* ref.Val, traits.Indexer included *)
| GoString (s : string)
| GoBool (b : bool)
| GoFloat32 (bits : Z)
| GoFloat64 (bits : Z)
| GoInt (n : Z)
| GoInt32 (n : Z)
| GoInt64 (n : Z)
| Native (k : Kind) (h : positive).

(** Modelled from the spec: an attribute is "a variable reference (name +
    id) plus an ordered, fixed-at-compile-time sequence of selector
    elements; each element may itself require evaluation against the
    current activation".  The resolver reads [ID] of a path element and
    calls its [ToValue]; what the element evaluates is named by a handle. *)
Record Var : Type := { Name : string; VarID : Z }.
Record PathElem : Type := { ID : Z; Source : positive }.
Record Attribute : Type := { Variable_ : Var; Path : list PathElem }.

(** Modelled from the spec: an activation offers [find(name) → (value,
    found)]; a partial activation offers besides
    [find-unknown-candidates(name) → (candidate attributes, found)].
    [FindUnknowns] is [None] for an activation that is not a
    [PartialActivation]. *)
Record Activation : Type := {
  Find : string -> option Obj;
  FindUnknowns : option (string -> option (list Attribute))
}.

(** [PathElem.ToValue(vars)] is not among the sources: a parameter. *)
Class PathEval : Type := {
  ToValue : PathElem -> Activation -> types.Val
}.

(** The [Resolver] interface. *)
Record ResolverI : Type := {
  Resolve : Activation -> Attribute -> Result (Obj * bool);
  ResolveRelative : Obj -> Activation -> Attribute -> Result Obj
}.

(** [defaultResolver]; [adapter] stands for [adapter.NativeToValue]. *)
Record defaultResolver : Type := { adapter : Obj -> types.Val }.

(** [wildcard], and the comparison [candElemVal == wildcard] of two
    interface values. *)
Definition wildcard : types.Val := types.String "*".

Definition isWildcard (v : types.Val) : bool :=
  match v with
  | types.String s => String.eqb s "*"
  | _ => false
  end.

Definition isTrue (v : types.Val) : bool :=
  match v with
  | types.Bool true => true
  | _ => false
  end.

(** The type assertions [k.(types.String)] and [i.(types.Int)] in their
    two-result form: the zero value and [false] when the assertion fails. *)
Definition assertString (k : types.Val) : string * bool :=
  match k with
  | types.String key => (key, true)
  | _ => (""%string, false)
  end.

Definition assertInt (i : types.Val) : Z * bool :=
  match i with
  | types.Int idx => (idx, true)
  | _ => (0, false)
  end.

Definition noSuchOverload : types.Val := types.NewErr "no such overload" [].
Definition noSuchKey : types.Val := types.NewErr "no such key" [].
Definition indexOutOfRange : types.Val := types.NewErr "index out of range" [].

Section Elements.
Context `{types.Lib}.

Definition getMapStrVal (m : gmap string string) (k : types.Val) : Obj :=
  let '(key, ok) := assertString k in
  if negb ok then Ref (types.ValOrErr k "no such overload")
  else match m !! key with
       | None => Ref noSuchKey
       | Some v => GoString v
       end.

(** In the six functions that follow, the source computes
    [types.ValOrErr(k, "no such overload")] when the assertion fails and
    drops it: control goes on to the lookup with the zero-value key. *)
Definition getMapFloat32Val (m : gmap string Z) (k : types.Val) : Obj :=
  let '(key, ok) := assertString k in
  let _ := if negb ok then Some (types.ValOrErr k "no such overload") else None in
  match m !! key with
  | None => Ref noSuchKey
  | Some v => GoFloat32 v
  end.

Definition getMapFloat64Val (m : gmap string Z) (k : types.Val) : Obj :=
  let '(key, ok) := assertString k in
  let _ := if negb ok then Some (types.ValOrErr k "no such overload") else None in
  match m !! key with
  | None => Ref noSuchKey
  | Some v => GoFloat64 v
  end.

Definition getMapIntVal (m : gmap string Z) (k : types.Val) : Obj :=
  let '(key, ok) := assertString k in
  let _ := if negb ok then Some (types.ValOrErr k "no such overload") else None in
  match m !! key with
  | None => Ref noSuchKey
  | Some v => GoInt v
  end.

Definition getMapInt32Val (m : gmap string Z) (k : types.Val) : Obj :=
  let '(key, ok) := assertString k in
  let _ := if negb ok then Some (types.ValOrErr k "no such overload") else None in
  match m !! key with
  | None => Ref noSuchKey
  | Some v => GoInt32 v
  end.

Definition getMapInt64Val (m : gmap string Z) (k : types.Val) : Obj :=
  let '(key, ok) := assertString k in
  let _ := if negb ok then Some (types.ValOrErr k "no such overload") else None in
  match m !! key with
  | None => Ref noSuchKey
  | Some v => GoInt64 v
  end.

Definition getMapBoolVal (m : gmap string bool) (k : types.Val) : Obj :=
  let '(key, ok) := assertString k in
  let _ := if negb ok then Some (types.ValOrErr k "no such overload") else None in
  match m !! key with
  | None => Ref noSuchKey
  | Some v => GoBool v
  end.

(** The seven list functions have one body; [wrapElem] says how an element
    of the slice becomes an [interface{}].  [l !! index] is [None] exactly
    when [index >= len(l)]. *)
Definition getListVal {A} (wrapElem : A -> Obj) (l : list A) (i : types.Val) : Obj :=
  let '(idx, ok) := assertInt i in
  if negb ok then Ref (types.ValOrErr i "no such overload")
  else
    let index := idx in
    if index <? 0 then Ref (types.ValOrErr (types.Int idx) "index out of range")
    else match l !! Z.to_nat index with
         | None => Ref (types.ValOrErr (types.Int idx) "index out of range")
         | Some v => wrapElem v
         end.

Definition getListIFaceVal : list Obj -> types.Val -> Obj := getListVal id.
Definition getListStrVal : list string -> types.Val -> Obj := getListVal GoString.
Definition getListFloat32Val : list Z -> types.Val -> Obj := getListVal GoFloat32.
Definition getListFloat64Val : list Z -> types.Val -> Obj := getListVal GoFloat64.
Definition getListIntVal : list Z -> types.Val -> Obj := getListVal GoInt.
Definition getListInt32Val : list Z -> types.Val -> Obj := getListVal GoInt32.
Definition getListInt64Val : list Z -> types.Val -> Obj := getListVal GoInt64.

(** [maybeUnwrapValue]; reading [v.Kind] through a nil pointer panics. *)
Definition maybeUnwrapValue (v : PbValue) : Result Obj :=
  match v with
  | Value_nil => Fault NilDereference
  | Value_BoolValue b => Ret (GoBool b)
  | Value_NullValue => Ret (Ref types.NullValue)
  | Value_NumberValue n => Ret (GoFloat64 n)
  | Value_StringValue s => Ret (GoString s)
  | _ => Ret (Proto (Value v))
  end.

Definition getStructField (fields : gmap string PbValue) (k : types.Val) : Result Obj :=
  let '(key, ok) := assertString k in
  if negb ok then Ret (Ref (types.ValOrErr k "no such overload"))
  else match fields !! key with
       | None => Ret (Ref noSuchKey)
       | Some value => maybeUnwrapValue value
       end.

Definition getListValueElem (elems : list PbValue) (i : types.Val) : Result Obj :=
  let '(idx, ok) := assertInt i in
  if negb ok then Ret (Ref (types.ValOrErr i "no such overload"))
  else
    let index := idx in
    if index <? 0 then Ret (Ref indexOutOfRange)
    else match elems !! Z.to_nat index with
         | None => Ret (Ref indexOutOfRange)
         | Some v => maybeUnwrapValue v
         end.

(** [val.(traits.Indexer)] followed by [Get], or "no such overload". *)
Definition getIndexed (val elem : types.Val) : Obj :=
  match val with
  | types.Indexer h => Ref (types.IndexerGet h elem)
  | _ => Ref (types.ValOrErr val "no such overload")
  end.

(** [getProtoField].  The calls on [o.GetStructValue()] and
    [o.GetListValue()] re-enter the function at a [*Struct] and a
    [*ListValue], whose cases are [getStructField] and [getListValueElem]. *)
Fixpoint getProtoField (res : defaultResolver) (obj : Message) (elem : types.Val)
  : Result Obj :=
  match obj with
  | Any_nil =>
      Ret (Ref (types.NewErr "unsupported type conversion: '%T'" ["*any.Any"%string]))
  | Any typeUrl None =>
      Ret (Ref (types.NewErr "unknown type: '%s'" [typeUrl]))
  | Any _ (Some message) => getProtoField res message elem
  | Value Value_nil => Ret (Ref noSuchOverload)
  | Value (Value_StructValue fields) => getStructField fields elem
  | Value (Value_ListValue values) => getListValueElem values elem
  | Value _ => Ret (Ref noSuchOverload)
  | Struct fields => getStructField fields elem
  | ListValue values => getListValueElem values elem
  | OtherMessage _ => Ret (getIndexed (adapter res (Proto obj)) elem)
  end.

(** The default case of [getElem]; [objKind] is [None] when
    [reflect.TypeOf(o)] is nil, and calling [Kind] on it panics. *)
Definition getElemReflect (res : defaultResolver) (obj : Obj)
           (objKind : option Kind) (elem : types.Val) : Result Obj :=
  match objKind with
  | None => Fault NilDereference
  | Some (KMap | KArray | KSlice) => Ret (getIndexed (adapter res obj) elem)
  | Some _ => Ret (Ref noSuchOverload)
  end.

Definition getElem (res : defaultResolver) (obj : Obj) (elem : types.Val)
  : Result Obj :=
  match obj with
  | MapIface o =>
      let '(key, ok) := assertString elem in
      if negb ok then Ret (Ref (types.ValOrErr elem "no such overload"))
      else match o !! key with
           | None => Ret (Ref noSuchKey)
           | Some v => Ret v
           end
  | MapStr o => Ret (getMapStrVal o elem)
  | MapFloat32 o => Ret (getMapFloat32Val o elem)
  | MapFloat64 o => Ret (getMapFloat64Val o elem)
  | MapInt o => Ret (getMapIntVal o elem)
  | MapInt32 o => Ret (getMapInt32Val o elem)
  | MapInt64 o => Ret (getMapInt64Val o elem)
  | MapBool o => Ret (getMapBoolVal o elem)
  | ListIface o => Ret (getListIFaceVal o elem)
  | ListStr o => Ret (getListStrVal o elem)
  | ListFloat32 o => Ret (getListFloat32Val o elem)
  | ListFloat64 o => Ret (getListFloat64Val o elem)
  | ListInt o => Ret (getListIntVal o elem)
  | ListInt32 o => Ret (getListInt32Val o elem)
  | ListInt64 o => Ret (getListInt64Val o elem)
  | Proto o => getProtoField res o elem
  | Ref (types.Indexer h) => Ret (Ref (types.IndexerGet h elem))
  | Ref (types.Err _ _) | Ref (types.Unknown _) => Ret obj
  | Ref o => Ret (Ref (types.ValOrErr o "no such overload"))
  | Nil => getElemReflect res obj None elem
  | GoString _ => getElemReflect res obj (Some KString) elem
  | GoBool _ => getElemReflect res obj (Some KBool) elem
  | GoFloat32 _ => getElemReflect res obj (Some KFloat32) elem
  | GoFloat64 _ => getElemReflect res obj (Some KFloat64) elem
  | GoInt _ => getElemReflect res obj (Some KInt) elem
  | GoInt32 _ => getElemReflect res obj (Some KInt32) elem
  | GoInt64 _ => getElemReflect res obj (Some KInt64) elem
  | Native k _ => getElemReflect res obj (Some k) elem
  end.

End Elements.

(** *** [defaultResolver] and [unknownResolver] *)

Section Resolvers.
Context `{types.Lib} `{PathEval}.

(** The loop [for _, elem := range attrPath
    { obj = res.getElem(obj, elem.ToValue(vars)) }], which [Resolve] and
    [ResolveRelative] both run. *)
Fixpoint walkPath (res : defaultResolver) (vars : Activation) (obj : Obj)
         (attrPath : list PathElem) : Result Obj :=
  match attrPath with
  | [] => Ret obj
  | elem :: rest =>
      obj' ← getElem res obj (ToValue elem vars);
      walkPath res vars obj' rest
  end.

Definition defaultResolver_Resolve (res : defaultResolver)
           (vars : Activation) (attr : Attribute) : Result (Obj * bool) :=
  let varName := Name (Variable_ attr) in
  let attrPath := Path attr in
  match Find vars varName with
  | None => Ret (Nil, false)
  | Some obj =>
      obj' ← walkPath res vars obj attrPath;
      Ret (obj', true)
  end.

Definition defaultResolver_ResolveRelative (res : defaultResolver)
           (obj : Obj) (vars : Activation) (attr : Attribute) : Result Obj :=
  walkPath res vars obj (Path attr).

Definition NewResolver (adapter : Obj -> types.Val) : ResolverI :=
  let res := {| Resolver.adapter := adapter |} in
  {| Resolve := defaultResolver_Resolve res;
     ResolveRelative := defaultResolver_ResolveRelative res |}.

(** The inner loop of [unknownResolver.Resolve] over the path of one
    candidate, from position [j]: the result is ([isMatch], [candUnkID])
    after the loop.  [varPath !! j] is [None] exactly when
    [j >= varPathLen]. *)
Fixpoint matchCandidate (vars : Activation) (varPath : list PathElem)
         (candPath : list PathElem) (j : nat) (candUnkID : Z) : bool * Z :=
  match candPath with
  | [] => (true, candUnkID)
  | candElem :: rest =>
      match varPath !! j with
      | None => (true, candUnkID)
      | Some varElem =>
          let candUnkID := ID varElem in
          let candElemVal := ToValue candElem vars in
          if isWildcard candElemVal
          then matchCandidate vars varPath rest (S j) candUnkID
          else
            let varElemVal := ToValue varElem vars in
            if negb (isTrue (types.Equal candElemVal varElemVal))
            then (false, candUnkID)
            else matchCandidate vars varPath rest (S j) candUnkID
      end
  end.

(** The loop over the candidates: the unknown of the first candidate that
    matches, if any. *)
Fixpoint firstUnknown (vars : Activation) (varPath : list PathElem)
         (varID : Z) (candUnknowns : list Attribute) : option types.Val :=
  match candUnknowns with
  | [] => None
  | cand :: rest =>
      let '(isMatch, candUnkID) :=
        matchCandidate vars varPath (Path cand) 0 varID in
      if isMatch then Some (types.Unknown [candUnkID])
      else firstUnknown vars varPath varID rest
  end.

Definition unknownResolver_Resolve (inner : ResolverI)
           (vars : Activation) (attr : Attribute) : Result (Obj * bool) :=
  match FindUnknowns vars with
  | None => Resolve inner vars attr
  | Some partial =>
      let varName := Name (Variable_ attr) in
      match partial varName with
      | None => Resolve inner vars attr
      | Some candUnknowns =>
          let varPath := Path attr in
          let varID := VarID (Variable_ attr) in
          match firstUnknown vars varPath varID candUnknowns with
          | Some unk => Ret (Ref unk, true)
          | None => Resolve inner vars attr
          end
      end
  end.

(** [NewUnknownResolver]: the embedded resolver supplies
    [ResolveRelative]. *)
Definition NewUnknownResolver (resolver : ResolverI) : ResolverI :=
  {| Resolve := unknownResolver_Resolve resolver;
     ResolveRelative := ResolveRelative resolver |}.

End Resolvers.

(** *** [listeningResolver] *)

(** [ResolveStatus]: each constant is declared as [1 << iota]. *)
Definition FoundAttribute : Z := Z.shiftl 1 0.
Definition NoSuchVariable : Z := Z.shiftl 1 1.
Definition NoSuchAttribute : Z := Z.shiftl 1 2.
Definition UnknownAttribute : Z := Z.shiftl 1 3.

(** A [ResolveListener] is called for its effect; the calls made so far
    are kept as the list of their arguments, in order. *)
Definition Notifications : Type := list (Attribute * Z).

Definition noPathElems : list PathElem := [].

(** The loop of [ancestorAttr]: the index of the first element, counted
    from [i], whose id is [ancestorID]. *)
Fixpoint ancestorIndex (path : list PathElem) (i : nat) (ancestorID : Z)
  : option nat :=
  match path with
  | [] => None
  | elem :: rest =>
      if ID elem =? ancestorID then Some i
      else ancestorIndex rest (S i) ancestorID
  end.

Definition ancestorAttr (attr : Attribute) (ancestorID : Z) : Attribute :=
  let aVar := Variable_ attr in
  if VarID aVar =? ancestorID
  then {| Variable_ := aVar; Path := noPathElems |}
  else match ancestorIndex (Path attr) 0 ancestorID with
       | Some i => {| Variable_ := aVar; Path := take (S i) (Path attr) |}
       | None => attr
       end.

(** [listeningResolver.Resolve]: the result of the wrapped resolver and the
    notifications after the call.  [unk[0]] is out of range for an empty
    [types.Unknown]. *)
Definition listeningResolver_Resolve (inner : ResolverI)
           (vars : Activation) (attr : Attribute) (notified : Notifications)
  : Result (Obj * bool * Notifications) :=
  '(v, found) ← Resolve inner vars attr;
  if negb found then Ret (v, found, notified ++ [(attr, NoSuchVariable)])
  else
    match v with
    | Ref (types.Unknown unk) =>
        match unk with
        | [] => Fault IndexOutOfRange
        | unk0 :: _ =>
            Ret (v, found, notified ++ [(ancestorAttr attr unk0, UnknownAttribute)])
        end
    | Ref (types.Err _ _) =>
        Ret (v, found, notified ++ [(attr, NoSuchAttribute)])
    | _ => Ret (v, found, notified ++ [(attr, FoundAttribute)])
    end.

End Resolver.

(** ** Package [cel]: helpers of the AST validators *)

Module cel.

(** [isOptionalIndex]: [i == int(optInd)] for some [optInd] of the slice. *)
Fixpoint isOptionalIndex (i : Z) (optIndices : list Z) : bool :=
  match optIndices with
  | [] => false
  | optInd :: rest => if i =? optInd then true else isOptionalIndex i rest
  end.

(** What [hasStringFormatAncestor] reads of an [ast.NavigableExpr]: its
    kind, the function name when it is a call, and its parent if it has
    one. *)
Inductive NodeKind : Type :=
| CallKind (functionName : string)
| ListKind
| MapKind
| OtherKind.

Inductive NavigableExpr : Type :=
| Node (kind : NodeKind) (parent : option NavigableExpr).

Definition Kind (e : NavigableExpr) : NodeKind :=
  match e with Node kind _ => kind end.

Definition Parent (e : NavigableExpr) : option NavigableExpr :=
  match e with Node _ parent => parent end.

Fixpoint hasStringFormatAncestor (e : NavigableExpr) : bool :=
  match e with
  | Node _ None => false
  | Node _ (Some parent) =>
      match Kind parent with
      | CallKind functionName =>
          if String.eqb functionName "format" then true else false
      | ListKind | MapKind => hasStringFormatAncestor parent
      | OtherKind => false
      end
  end.

(** The kinds of the ancestors of a node, nearest first. *)
Fixpoint ancestors (e : NavigableExpr) : list NodeKind :=
  match e with
  | Node _ None => []
  | Node _ (Some parent) => Kind parent :: ancestors parent
  end.

Definition isAggregate (kind : NodeKind) : bool :=
  match kind with
  | ListKind | MapKind => true
  | _ => false
  end.

End cel.

(** ** The properties, as the specification words them *)

Module Spec.
Import Program Resolver.

(** The scope depth after a run of instructions: "incremented by each
    enter-scope instruction and decremented by each exit-scope
    instruction".  The depth at position [i] of a sequence is the depth
    after its first [i] instructions. *)
Definition scopeDelta (inst : Instruction) : Z :=
  match inst with
  | PushScopeInst _ => 1
  | PopScopeInst _ => -1
  | _ => 0
  end.

Fixpoint scopeDepth (insts : list Instruction) : Z :=
  match insts with
  | [] => 0
  | inst :: rest => scopeDelta inst + scopeDepth rest
  end.

Definition depthAt (insts : list Instruction) (i : nat) : Z :=
  scopeDepth (take i insts).

(** The position that the specification gives to a byte offset: "the
    greatest line-start offset not exceeding the expression's offset", the
    line being its 1-based index and the column the distance to it.
    [best] is the (index, offset) pair found so far. *)
Fixpoint greatestLineStart (offsets : list Z) (exprOffset : Z) (index : Z)
         (best : option (Z * Z)) : option (Z * Z) :=
  match offsets with
  | [] => best
  | offset :: rest =>
      let best' :=
        if offset <=? exprOffset then
          match best with
          | Some (_, o) => if o <=? offset then Some (index, offset) else best
          | None => Some (index, offset)
          end
        else best in
      greatestLineStart rest exprOffset (index + 1) best'
  end.

Definition locationOf (offsets : list Z) (exprOffset : Z) : option Location :=
  match greatestLineStart offsets exprOffset 0 None with
  | Some (index, lineStart) => Some (NewLocation (index + 1) (exprOffset - lineStart))
  | None => None
  end.

Section Unknowns.
Context `{types.Lib} `{PathEval}.

(** "A candidate element whose resolved value equals the reserved wildcard
    marker matches anything; all other pairs must compare equal under
    value-level equality." *)
Definition elemMatches (vars : Activation) (pair : PathElem * PathElem) : bool :=
  let '(candElem, varElem) := pair in
  isWildcard (ToValue candElem vars)
  || isTrue (types.Equal (ToValue candElem vars) (ToValue varElem vars)).

(** The paths are compared "element-by-element up to the shorter length". *)
Definition candidateMatches (vars : Activation) (varPath : list PathElem)
           (cand : Attribute) : bool :=
  forallb (elemMatches vars) (zip (Path cand) varPath).

(** "the expression id of the last compared element (or the variable's id
    if the path is empty)": the compared elements of the queried path are
    its first [min (length candPath) (length varPath)] ones. *)
Definition lastComparedID (varID : Z) (varPath : list PathElem)
           (cand : Attribute) : Z :=
  match last (take (length (Path cand)) varPath) with
  | Some varElem => ID varElem
  | None => varID
  end.

(** "The first fully matching candidate produces an unknown sentinel ...
    No match falls through to the wrapped resolver." *)
Definition resolveUnknown (inner : ResolverI) (vars : Activation)
           (attr : Attribute) : Result (Obj * bool) :=
  let candidates :=
    match FindUnknowns vars with
    | Some findUnknowns => default [] (findUnknowns (Name (Variable_ attr)))
    | None => []
    end in
  match List.find (candidateMatches vars (Path attr)) candidates with
  | Some cand =>
      Ret (Ref (types.Unknown
                  [lastComparedID (VarID (Variable_ attr)) (Path attr) cand]),
           true)
  | None => Resolve inner vars attr
  end.

End Unknowns.

(** An error or unknown sentinel. *)
Definition isSentinel (obj : Obj) : bool :=
  match obj with
  | Ref (types.Err _ _) | Ref (types.Unknown _) => true
  | _ => false
  end.

(** The instructions of [insts] whose positions, counted from [base], are
    not among [removed], in their order. *)
Fixpoint removeAt (removed : list Z) (base : Z) (insts : list Instruction)
  : list Instruction :=
  match insts with
  | [] => []
  | inst :: rest =>
      if bool_decide (base ∈ removed) then removeAt removed (base + 1) rest
      else inst :: removeAt removed (base + 1) rest
  end.

(** The ids of the call instructions of a sequence. *)
Definition callIDs (insts : list Instruction) : list Z :=
  omap (fun inst =>
          match inst with
          | CallExprInst call => Some (Program.ID call)
          | _ => None
          end) insts.

(** A call that [maybeComputeConstCall] turns down whatever the scratch
    state holds: no implementation, a function of the iteration protocol,
    or a number of arguments other than one or two. *)
Definition neverConstant (call : CallExpr) : bool :=
  match Impl call with
  | None => true
  | Some _ =>
      isIterationCall (Function call)
      || negb ((length (Args call) =? 1)%nat || (length (Args call) =? 2)%nat)
  end.

(** A sequence all of whose calls are such. *)
Definition allNeverConstant (insts : list Instruction) : Prop :=
  Forall (fun inst =>
            match inst with
            | CallExprInst call => neverConstant call = true
            | _ => True
            end) insts.

(** The Go scalars that the primitive maps and lists hold. *)
Definition isScalar (obj : Obj) : bool :=
  match obj with
  | GoString _ | GoBool _ | GoFloat32 _ | GoFloat64 _
  | GoInt _ | GoInt32 _ | GoInt64 _ => true
  | _ => false
  end.

(** Lists of positions that never go down, starting no lower than [lo],
    and lists that go strictly up from above [lo]. *)
Fixpoint nondecreasingFrom (lo : Z) (js : list Z) : Prop :=
  match js with
  | [] => True
  | j :: rest => lo <= j /\ nondecreasingFrom j rest
  end.

Fixpoint increasingFrom (lo : Z) (js : list Z) : Prop :=
  match js with
  | [] => True
  | j :: rest => lo < j /\ increasingFrom j rest
  end.

(** No call of the logical conjunction or disjunction in a sequence. *)
Definition noLogicalCalls (insts : list Instruction) : Prop :=
  Forall (fun inst =>
            match inst with
            | CallExprInst call => isLogical (Function call) = false
            | _ => True
            end) insts.

(** The attribute with the same variable and another path. *)
Definition withPath (attr : Attribute) (path : list PathElem) : Attribute :=
  {| Variable_ := Variable_ attr; Path := path |}.

(** A string-keyed map shape seen as a map of dynamic values, and a slice
    shape seen as a list of dynamic values: how [getElem] hands out their
    elements. *)
Definition mapView (obj : Obj) : option (gmap string Obj) :=
  match obj with
  | MapIface m => Some m
  | MapStr m => Some (GoString <$> m)
  | MapFloat32 m => Some (GoFloat32 <$> m)
  | MapFloat64 m => Some (GoFloat64 <$> m)
  | MapInt m => Some (GoInt <$> m)
  | MapInt32 m => Some (GoInt32 <$> m)
  | MapInt64 m => Some (GoInt64 <$> m)
  | MapBool m => Some (GoBool <$> m)
  | _ => None
  end.

Definition listView (obj : Obj) : option (list Obj) :=
  match obj with
  | ListIface l => Some l
  | ListStr l => Some (GoString <$> l)
  | ListFloat32 l => Some (GoFloat32 <$> l)
  | ListFloat64 l => Some (GoFloat64 <$> l)
  | ListInt l => Some (GoInt <$> l)
  | ListInt32 l => Some (GoInt32 <$> l)
  | ListInt64 l => Some (GoInt64 <$> l)
  | _ => None
  end.

End Spec.

(** ** Concrete inputs *)

Module Examples.
Import Program Resolver.

(** A value library to run the definitions on: [ValOrErr] keeps an error
    or unknown value and otherwise makes a new error; indexable values are
    empty; equality is that of integers, strings and booleans. *)
Definition lib : types.Lib := {|
  types.ValOrErr := fun v format =>
    match v with
    | types.Err _ _ | types.Unknown _ => v
    | _ => types.NewErr format []
    end;
  types.IndexerGet := fun _ _ => noSuchKey;
  types.Equal := fun a b =>
    match a, b with
    | types.Int x, types.Int y => types.Bool (x =? y)
    | types.String x, types.String y => types.Bool (String.eqb x y)
    | types.Bool x, types.Bool y => types.Bool (Bool.eqb x y)
    | _, _ => types.Bool false
    end;
  types.HasTrait := fun _ _ => true
|}.

(** Path elements that are constants: the handle [1] is the field [a], [2]
    the field [b], [3] the wildcard; any other handle is an integer
    index. *)
Definition pathEval : PathEval := {|
  ToValue := fun elem _ =>
    match Source elem with
    | 1%positive => types.String "a"
    | 2%positive => types.String "b"
    | 3%positive => types.String "*"
    | h => types.Int (Z.pos h)
    end
|}.

(** A walker that plans every expression as one literal push. *)
Definition walker : Walker := {|
  WalkExpr := fun e _ state _ =>
    (Some [PushLiteralInst (Id e) (types.Int 1)], state)
|}.

Definition noInfo : SourceInfo := {| LineOffsets := []; Positions := ∅ |}.

Definition literal (id : Z) : Expr := mkExpr id LiteralKind [].

(** Implementations: a unary and a binary function on values. *)
Definition negImpl : Overload := {|
  OperandTrait := 0;
  Unary := Some (fun v => match v with types.Int n => types.Int (- n) | _ => v end);
  Binary := None;
  Function_ := None
|}.

Definition andImpl : Overload := {|
  OperandTrait := 0;
  Unary := None;
  Binary := Some (fun a b =>
    match a, b with
    | types.Bool x, types.Bool y => types.Bool (x && y)
    | _, _ => types.NewErr "no such overload" []
    end);
  Function_ := None
|}.

Definition pairImpl : Overload := {|
  OperandTrait := 0;
  Unary := None;
  Binary := Some (fun a _ => a);
  Function_ := None
|}.

Definition notImpl : Overload := {|
  OperandTrait := 0;
  Unary := Some (fun v =>
    match v with
    | types.Bool b => types.Bool (negb b)
    | _ => types.NewErr "no such overload" []
    end);
  Binary := None;
  Function_ := None
|}.

Definition mkCall (id : Z) (fn : string) (args : list Z) (impl : Overload)
  : Instruction :=
  CallExprInst {| Program.ID := id; Function := fn; Args := args; Impl := Some impl |}.

(** A sequence without jumps, as planning without short-circuit leaves
    them out, for [g(y, true && false)]: the load of [y] (id 2), the
    conjunction of the literals 3 and 4 (id 5), the call of [g] (id 1).  The
    scratch state holds the two literals. *)
Definition exhaustiveInsts : list Instruction :=
  [ SelectAttrInst 2 "y";
    mkCall 5 operators.LogicalAnd [3; 4] andImpl;
    mkCall 1 "g" [2; 5] pairImpl ].

Definition exhaustiveProgram : Program := {|
  expression := mkExpr 1 CallKind [];
  Instructions := Some exhaustiveInsts;
  metadata := newExprMetadata noInfo;
  revInstructions := {[ 2 := 0; 5 := 1; 1 := 2 ]};
  flags := programFlagExhaustive;
  resultID := 1
|}.

Definition literalState : evalState :=
  {| values := {[ 3 := types.Bool true; 4 := types.Bool false ]} |}.

(** A conjunction (id 3) of the literal 10 and of the negation (id 2) of
    the literal 11, with the jump that short-circuits it. *)
Definition jumpInsts : list Instruction :=
  [ JumpInst 3 2 (Some (10, types.Bool false));
    mkCall 2 "!_" [11] notImpl;
    mkCall 3 operators.LogicalAnd [10; 2] andImpl ].

Definition jumpState : evalState :=
  {| values := {[ 10 := types.Bool true; 11 := types.Bool false ]} |}.

(** A constant call at depth zero and the same call inside a scope. *)
Definition scopedInsts : list Instruction :=
  [ mkCall 2 "-_" [1] negImpl;
    PushScopeInst 10;
    mkCall 4 "-_" [1] negImpl;
    PopScopeInst 11 ].

Definition oneState : evalState := {| values := {[ 1 := types.Int 1 ]} |}.

(** Two lines, starting at the offsets 0 and 10; the expression 7 starts at
    the offset 5, on the first line. *)
Definition twoLines : exprMetadata :=
  newExprMetadata {| LineOffsets := [0; 10]; Positions := {[ 7 := 5 ]} |}.

(** Activations and attributes. *)
Definition activation (bindings : gmap string Obj) : Activation :=
  {| Find := fun name => bindings !! name; FindUnknowns := None |}.

Definition field (id : Z) (h : positive) : PathElem := {| Resolver.ID := id; Source := h |}.

Definition attribute (name : string) (id : Z) (path : list PathElem) : Attribute :=
  {| Variable_ := {| Name := name; VarID := id |}; Path := path |}.

Definition resolver : defaultResolver := {| adapter := fun _ => noSuchOverload |}.

(** A dispatcher that knows the negation and the conjunction. *)
Definition dispatcher : Dispatcher := {|
  FindOverload := fun name =>
    if String.eqb name "-_" then Some negImpl
    else if String.eqb name operators.LogicalAnd then Some andImpl
    else None
|}.

(** A resolver that answers every query with the same result. *)
Definition constResolver (result : Result (Obj * bool)) : ResolverI :=
  {| Resolve := fun _ _ => result;
     ResolveRelative := fun obj _ _ => Ret obj |}.

(** Programs over a given instruction sequence, with short-circuit and
    without. *)
Definition programOf (insts : list Instruction) : Program :=
  setInstructions (NewProgram (literal 1) noInfo) insts.

Definition exhaustiveProgramOf (insts : list Instruction) : Program :=
  setInstructions (NewExhaustiveProgram (literal 1) noInfo) insts.



(** The conjunction of the literals 3 and 4 alone. *)
Definition conjunctionInsts : list Instruction :=
  [ mkCall 5 operators.LogicalAnd [3; 4] andImpl ].

End Examples.

(** * Properties of [program.go] *)

Module ProgramFacts.
Import Program Spec Examples.

(** ** Instruction lookup *)

Lemma index_head {A} (a : A) (rest : list A) : index (Some (a :: rest)) 0 = Ret a.
Proof. reflexivity. Qed.

Lemma index_empty {A} (l : option (list A)) (i : Z) :
  default [] l = [] -> index l i = Fault IndexOutOfRange.
Proof.
  intros Hl. unfold index. rewrite Hl.
  destruct (i <? 0); [reflexivity |].
  now rewrite lookup_nil.
Qed.

(** C10. For a program whose instruction sequence is not empty,
    [GetInstruction] at an expression id that the reverse index does not
    hold returns the instruction at position 0 (the zero value of the map
    read); when the sequence is nil or empty the call panics with an index
    out of range, whatever the id. *)
Theorem GetInstruction_absent_id (p : Program) (runtimeID : Z) :
  (forall first rest,
      revInstructions p !! runtimeID = None ->
      Instructions p = Some (first :: rest) ->
      GetInstruction p runtimeID = Ret first)
  /\ (Instructions p = None \/ Instructions p = Some [] ->
      GetInstruction p runtimeID = Fault IndexOutOfRange).
Proof.
  split.
  - intros first rest Habsent Hinsts. unfold GetInstruction.
    rewrite Habsent, Hinsts. apply index_head.
  - intros Hnone. unfold GetInstruction. apply index_empty.
    destruct Hnone as [-> | ->]; reflexivity.
Qed.

Lemma GetInstruction_absent_id_witness :
  GetInstruction exhaustiveProgram 99 = Ret (SelectAttrInst 2 "y")
  /\ GetInstruction (NewProgram (literal 1) noInfo) 99 = Fault IndexOutOfRange.
Proof.
  split.
  - apply (proj1 (GetInstruction_absent_id exhaustiveProgram 99)
             (SelectAttrInst 2 "y")
             [mkCall 5 operators.LogicalAnd [3; 4] andImpl;
              mkCall 1 "g" [2; 5] pairImpl]).
    + vm_compute. reflexivity.
    + reflexivity.
  - apply (proj2 (GetInstruction_absent_id (NewProgram (literal 1) noInfo) 99)).
    left. reflexivity.
Defined.

(** ** Planning *)

Section PlanFacts.
Context `{Walker}.

Lemma plan_planned (p : Program) (state : evalState) :
  Instructions p <> None -> plan p state = (p, state).
Proof.
  intros Hinsts. unfold plan. destruct (Instructions p); [reflexivity | congruence].
Qed.

(** C8. Planning is idempotent: once the first call of [plan] has left an
    instruction sequence, a second call (with any scratch state) changes
    nothing, so the program, and with it the instruction sequence and the
    reverse index, is the one that the first call produced.  When the
    walker returned a nil sequence the second call walks the tree again,
    and the program is again the same provided the instructions that the
    walker emits do not depend on the scratch state. *)
Theorem plan_idempotent (p : Program) (state state' : evalState) :
  Instructions (plan p state).1 <> None
  \/ (forall e m s s' b, (WalkExpr e m s b).1 = (WalkExpr e m s' b).1) ->
  (plan (plan p state).1 state').1 = (plan p state).1.
Proof.
  intros [Hsome | Hdet].
  - now rewrite (plan_planned _ state' Hsome).
  - destruct (plan p state) as [p1 state1] eqn:Hplan. cbn [fst].
    unfold plan in Hplan.
    destruct (Instructions p) as [insts |] eqn:Hinsts.
    + inversion Hplan; subst. unfold plan. now rewrite Hinsts.
    + destruct (WalkExpr (expression p) (metadata p) state _)
        as [walked state2] eqn:Hwalk.
      inversion Hplan; subst; clear Hplan.
      destruct walked as [insts |]; [reflexivity |].
      unfold plan. cbn [Instructions expression metadata flags revInstructions].
      specialize (Hdet (expression p) (metadata p) state' state
                       (Z.land (flags p) programFlagNoShortCircuit =? 0)).
      rewrite Hwalk in Hdet. cbn [fst] in Hdet.
      destruct (WalkExpr (expression p) (metadata p) state' _) as [walked' state3].
      cbn [fst] in Hdet. subst walked'. reflexivity.
Qed.

End PlanFacts.

Lemma plan_idempotent_witness :
  (@plan walker (@plan walker (NewProgram (literal 1) noInfo) literalState).1 oneState).1
  = (@plan walker (NewProgram (literal 1) noInfo) literalState).1.
Proof.
  apply (@plan_idempotent walker (NewProgram (literal 1) noInfo) literalState oneState).
  left. vm_compute. discriminate.
Defined.

(** ** Source locations *)

(** C9. With line starts at the offsets 0 and 10, an expression at the
    offset 5 lies on line 1, column 5; [IDLocation] reports column -5: the
    loop leaves [lineOffset] at the first line start beyond the expression
    and the column is taken from that one. *)
Theorem IDLocation_column_from_next_line :
  IDLocation twoLines 7 = (Some (NewLocation 1 (-5)), true)
  /\ locationOf (LineOffsets (info twoLines)) 5 = Some (NewLocation 1 5).
Proof. split; vm_compute; reflexivity. Qed.

(** ** Constant folding *)

Section FoldingFacts.
Context `{types.Lib}.

(** C5. The program [exhaustiveProgram] has the no-short-circuit flag and
    holds no jump, yet folding its conjunction (position 1) also removes the
    instruction before it, the load of [y], and leaves the call of [g]
    alone: the instruction at [i - 1] goes whatever it is. *)
Theorem computeConstExprs_removes_non_jump :
  Z.land (flags exhaustiveProgram) programFlagNoShortCircuit <> 0
  /\ forallb (fun inst => negb (isJump inst)) exhaustiveInsts = true
  /\ scan exhaustiveInsts 0 0 [] literalState
     = Ret ([0; 1], setValue literalState 5 (types.Bool false))
  /\ computeConstExprs exhaustiveProgram literalState
     = Some (Ret (setInstructions exhaustiveProgram [mkCall 1 "g" [2; 5] pairImpl],
                  setValue literalState 5 (types.Bool false))).
Proof.
  split; [vm_compute; discriminate |].
  split; [reflexivity |].
  split; vm_compute; reflexivity.
Qed.

(** With a jump in place but a right operand that folds in the same pass,
    the position before the conjunction is collected twice; the new slice
    is made too short and the copy loop runs out of it. *)
Example pass_folds_then_panics :
  scan jumpInsts 0 0 [] jumpState
  = Ret ([1; 1; 2],
         setValue (setValue jumpState 2 (types.Bool true)) 3 (types.Bool true))
  /\ pass jumpInsts jumpState = Fault IndexOutOfRange.
Proof. split; vm_compute; reflexivity. Qed.

(** *** Each pass shrinks the sequence or stops *)

Lemma copyInsts_ret insts cnt n i oi opt i' oi' opt' :
  copyInsts insts cnt n i oi opt = Ret (i', oi', opt') ->
  oi' = oi + Z.of_nat n
  /\ length opt' = (length opt + n)%nat
  /\ (n <> O -> oi' <= cnt).
Proof.
  revert i oi opt. induction n as [| n IH]; intros i oi opt Hcopy; cbn in Hcopy.
  - inversion Hcopy; subst. repeat split; [lia | lia | congruence].
  - unbind. destruct (index (Some insts) i) as [inst |]; [| discriminate].
    destruct ((oi <? 0) || (cnt <=? oi)) eqn:Hrange; [discriminate |].
    apply orb_false_iff in Hrange as [Hlo Hhi].
    apply Z.ltb_ge in Hlo. apply Z.leb_gt in Hhi.
    apply IH in Hcopy as (-> & Hlen & Hle).
    rewrite length_app in Hlen. cbn in Hlen.
    repeat split; [lia | lia |].
    intros _. destruct n; [lia | apply Hle; congruence].
Qed.

Lemma skipConsts_ret insts cnt constInsts i oi opt i' oi' opt' :
  skipConsts insts cnt constInsts i oi opt = Ret (i', oi', opt') ->
  0 <= oi <= cnt -> Z.of_nat (length opt) = oi ->
  0 <= oi' <= cnt /\ Z.of_nat (length opt') = oi'.
Proof.
  revert i oi opt. induction constInsts as [| j rest IH]; intros i oi opt Hskip Hoi Hlen;
    cbn in Hskip.
  - inversion Hskip; subst. auto.
  - unbind.
    destruct (copyInsts insts cnt (Z.to_nat (j - i)) i oi opt)
      as [[[i1 oi1] opt1] |] eqn:Hcopy; [| discriminate].
    apply copyInsts_ret in Hcopy as (-> & Hlen1 & Hle).
    apply IH in Hskip; [exact Hskip | | lia].
    destruct (Z.to_nat (j - i)) as [| n]; [lia |].
    split; [lia | apply Hle; congruence].
Qed.

(** A pass that goes on leaves exactly [len(instructions) - len(constInsts)]
    instructions, and [constInsts] is not empty. *)
Lemma pass_next insts state optInsts state' :
  pass insts state = Ret (Next optInsts state') ->
  exists constInsts,
    scan insts 0 0 [] state = Ret (constInsts, state')
    /\ constInsts <> []
    /\ Z.of_nat (length optInsts)
       = Z.of_nat (length insts) - Z.of_nat (length constInsts).
Proof.
  unfold pass. unbind. intros Hpass.
  destruct (scan insts 0 0 [] state) as [[constInsts state1] |]; [| discriminate].
  destruct (Z.of_nat (length constInsts) =? 0) eqn:Hzero; [discriminate |].
  apply Z.eqb_neq in Hzero.
  set (cnt := Z.of_nat (length insts) - Z.of_nat (length constInsts)) in *.
  destruct (cnt <? 0) eqn:Hneg; [discriminate |]. apply Z.ltb_ge in Hneg.
  destruct (skipConsts insts cnt constInsts 0 0 []) as [[[i oi] opt] |] eqn:Hskip;
    [| discriminate].
  apply skipConsts_ret in Hskip as [Hoi Hlen]; [| lia | reflexivity].
  destruct (copyInsts insts cnt (Z.to_nat (cnt - oi)) i oi opt)
    as [[[i2 oi2] opt2] |] eqn:Hcopy; [| discriminate].
  apply copyInsts_ret in Hcopy as (_ & Hlen2 & _).
  inversion Hpass; subst. exists constInsts.
  split; [reflexivity |]. split; [destruct constInsts; [cbn in Hzero; lia | discriminate] |].
  lia.
Qed.

Lemma pass_shrinks insts state optInsts state' :
  pass insts state = Ret (Next optInsts state') ->
  (length optInsts < length insts)%nat.
Proof.
  intros Hpass. apply pass_next in Hpass as (constInsts & _ & Hne & Hlen).
  destruct constInsts; [congruence | cbn in Hlen; lia].
Qed.

Lemma maybeComputeConstCall_false call state state' :
  maybeComputeConstCall call state = Ret (false, state') -> state' = state.
Proof.
  unfold maybeComputeConstCall. intros Hcall.
  repeat match type of Hcall with
         | context [match ?x with _ => _ end] => destruct x
         end; congruence.
Qed.

(** [scan] only adds to [constInsts], and leaves the state alone when it
    adds nothing. *)
Lemma scan_extends insts i nested constInsts state constInsts' state' :
  scan insts i nested constInsts state = Ret (constInsts', state') ->
  exists added, constInsts' = constInsts ++ added /\ (added = [] -> state' = state).
Proof.
  revert i nested constInsts state.
  induction insts as [| inst rest IH]; intros i nested constInsts state Hscan;
    cbn in Hscan.
  - inversion Hscan; subst. exists []. split; [now rewrite app_nil_r | reflexivity].
  - destruct inst as [| | call | | |]; try (apply IH in Hscan; exact Hscan).
    destruct (negb (nested =? 0)); [apply IH in Hscan; exact Hscan |].
    unbind.
    destruct (maybeComputeConstCall call state) as [[computed state1] |] eqn:Hcall;
      [| discriminate].
    destruct computed.
    + apply IH in Hscan as (added & -> & _).
      destruct (isLogical (Function call)).
      * exists ([i - 1; i] ++ added). split; [| discriminate].
        now rewrite <- !app_assoc.
      * exists ([i] ++ added). split; [| discriminate].
        now rewrite <- !app_assoc.
    + apply maybeComputeConstCall_false in Hcall as ->.
      apply IH in Hscan. exact Hscan.
Qed.

Lemma pass_stop insts state state' :
  pass insts state = Ret (Stop state') ->
  scan insts 0 0 [] state = Ret ([], state') /\ state' = state.
Proof.
  unfold pass. unbind. intros Hpass.
  destruct (scan insts 0 0 [] state) as [[constInsts state1] |] eqn:Hscan;
    [| discriminate].
  destruct (Z.of_nat (length constInsts) =? 0) eqn:Hzero.
  - inversion Hpass; subst. apply Z.eqb_eq in Hzero.
    destruct constInsts; [| cbn in Hzero; lia].
    split; [reflexivity |].
    apply scan_extends in Hscan as (added & Hadded & Hsame).
    apply Hsame. destruct added; [reflexivity | discriminate].
  - destruct (_ <? 0); [discriminate |].
    destruct (skipConsts _ _ _ _ _ _) as [[[i oi] opt] |]; [| discriminate].
    destruct (copyInsts _ _ _ _ _ _) as [[[i2 oi2] opt2] |]; discriminate.
Qed.

Lemma computeConstExprs_fuel_enough fuel p state :
  (length (default [] (Instructions p)) < fuel)%nat ->
  exists outcome, forall extra,
    computeConstExprs_fuel (fuel + extra) p state = Some outcome.
Proof.
  revert p state. induction fuel as [| fuel IH]; intros p state Hfuel; [lia |].
  cbn [Nat.add computeConstExprs_fuel].
  destruct (Instructions p) as [insts |] eqn:Hinsts; [| eauto].
  cbn in Hfuel.
  destruct (pass insts state) as [[state1 | optInsts state1] | e] eqn:Hpass; [eauto | | eauto].
  apply pass_shrinks in Hpass.
  apply (IH (setInstructions p optInsts) state1). cbn. lia.
Qed.

(** X24. [computeConstExprs] always halts, with a normal return or with a
    run-time panic: it has an outcome after at most one more round than
    there are instructions, and spending more rounds does not change it.
    A pass that returns either performed zero foldings and stops, leaving
    the scratch state as it was, or hands a strictly shorter sequence to
    the next round; a pass may also panic, which ends the computation. *)
Theorem computeConstExprs_terminates (p : Program) (state : evalState) :
  (exists outcome,
      computeConstExprs p state = Some outcome
      /\ forall extra,
        computeConstExprs_fuel
          (S (length (default [] (Instructions p))) + extra) p state
        = Some outcome)
  /\ (forall insts st,
        match pass insts st with
        | Ret (Stop st') => scan insts 0 0 [] st = Ret ([], st') /\ st' = st
        | Ret (Next optInsts _) => (length optInsts < length insts)%nat
        | Fault _ => True
        end).
Proof.
  split.
  - destruct (computeConstExprs_fuel_enough
                (S (length (default [] (Instructions p)))) p state)
      as [outcome Houtcome]; [lia |].
    exists outcome. split; [| exact Houtcome].
    unfold computeConstExprs. specialize (Houtcome O).
    now rewrite Nat.add_0_r in Houtcome.
  - intros insts st.
    destruct (pass insts st) as [[st' | optInsts st'] | e] eqn:Hpass.
    + now apply pass_stop.
    + now apply pass_shrinks in Hpass.
    + exact I.
Qed.

(** *** Calls inside a scope *)

Lemma scopeDepth_app (l1 l2 : list Instruction) :
  scopeDepth (l1 ++ l2) = scopeDepth l1 + scopeDepth l2.
Proof. induction l1 as [| inst l1 IH]; cbn; [reflexivity | rewrite IH; lia]. Qed.

Lemma depthAt_S (insts : list Instruction) (i : nat) (inst : Instruction) :
  insts !! i = Some inst ->
  depthAt insts (S i) = depthAt insts i + scopeDelta inst.
Proof.
  intros Hinst. unfold depthAt.
  rewrite (take_S_r _ _ _ Hinst), scopeDepth_app. cbn. lia.
Qed.

(** Every index that [scan] collects comes from a call met while the
    counter was zero: it is the position of that call or the one before. *)
Lemma scan_collected insts i nested constInsts state constInsts' state' :
  scan insts i nested constInsts state = Ret (constInsts', state') ->
  forall x, x ∈ constInsts' ->
    x ∈ constInsts
    \/ exists k call,
        insts !! k = Some (CallExprInst call)
        /\ nested + depthAt insts k = 0
        /\ (x = i + Z.of_nat k \/ x = i + Z.of_nat k - 1).
Proof.
  revert i nested constInsts state.
  induction insts as [| inst rest IH]; intros i nested constInsts state Hscan x Hx;
    cbn in Hscan.
  - inversion Hscan; subst. now left.
  - assert (Hrest : forall nested' cs st,
               scan rest (i + 1) nested' cs st = Ret (constInsts', state') ->
               nested' = nested + scopeDelta inst ->
               x ∈ cs
               \/ exists k call,
                   (inst :: rest) !! k = Some (CallExprInst call)
                   /\ nested + depthAt (inst :: rest) k = 0
                   /\ (x = i + Z.of_nat k \/ x = i + Z.of_nat k - 1)).
    { intros nested' cs st Hscan' ->.
      destruct (IH _ _ _ _ Hscan' x Hx) as [Hin | (k & call & Hk & Hdepth & Hpos)];
        [now left | right].
      exists (S k), call. split; [exact Hk |].
      split; [unfold depthAt in *; cbn; lia | lia]. }
    destruct inst as [| | call | | |];
      try (apply (Hrest _ _ _ Hscan); cbn; lia).
    destruct (negb (nested =? 0)) eqn:Hnested;
      [apply (Hrest _ _ _ Hscan); cbn; lia |].
    apply negb_false_iff, Z.eqb_eq in Hnested.
    unbind.
    destruct (maybeComputeConstCall call state) as [[computed state1] |];
      [| discriminate].
    destruct computed; [| apply (Hrest _ _ _ Hscan); cbn; lia].
    destruct (Hrest _ _ _ Hscan ltac:(cbn; lia)) as [Hin | Hlater]; [| now right].
    assert (Hhere : x ∈ constInsts \/ x = i - 1 \/ x = i).
    { destruct (isLogical (Function call));
        repeat (apply elem_of_app in Hin as [Hin | Hin]);
        try apply list_elem_of_singleton in Hin; auto. }
    destruct Hhere as [Hin' | Hpos]; [now left | right].
    exists O, call. split; [reflexivity |].
    split; [unfold depthAt; cbn; lia | lia].
Qed.

(** X23. In one scan of [computeConstExprs], over any instruction sequence
    and scratch state, the position of a call instruction whose scope depth
    in the scanned sequence (the enter-scope instructions before it minus
    the exit-scope ones) is not zero is never collected, whatever its
    operands: neither as a call to fold nor as the instruction to remove
    along with a folded conjunction or disjunction.  This is about the scan
    of a single pass: it says nothing of what the copy loop keeps, nor of
    the depth the call has in the sequence of a later pass. *)
Theorem scan_skips_scoped_calls (insts : list Instruction)
        (state state' : evalState) (constInsts : list Z)
        (i : nat) (call : CallExpr) :
  scan insts 0 0 [] state = Ret (constInsts, state') ->
  insts !! i = Some (CallExprInst call) ->
  depthAt insts i <> 0 ->
  Z.of_nat i ∉ constInsts.
Proof.
  intros Hscan Hcall Hdepth Hin.
  destruct (scan_collected _ _ _ _ _ _ _ Hscan _ Hin)
    as [Hnil | (k & call' & Hk & Hzero & [Hpos | Hpos])].
  - now apply elem_of_nil in Hnil.
  - assert (k = i) as -> by lia. lia.
  - assert (k = S i) as -> by lia.
    rewrite (depthAt_S _ _ _ Hcall) in Hzero. cbn in Hzero. lia.
Qed.

(** *** Scoped calls across passes *)


(** C7. A pass that folds and then panics: on [jumpInsts], a conjunction
    with its short-circuit jump and a right operand that is itself
    constant, the scan folds the negation and the conjunction, the new
    slice is made one slot too short and the copy loop writes past it; on
    the conjunction of two literals alone, without a jump, the scan folds
    it and the length computed for the new slice is negative.  Neither pass
    removes an instruction, neither performs zero foldings, and
    [computeConstExprs] ends in the panic. *)
Theorem computeConstExprs_folds_then_panics :
  (scan jumpInsts 0 0 [] jumpState
   = Ret ([1; 1; 2],
          setValue (setValue jumpState 2 (types.Bool true)) 3 (types.Bool true))
   /\ pass jumpInsts jumpState = Fault IndexOutOfRange
   /\ computeConstExprs (programOf jumpInsts) jumpState
      = Some (Fault IndexOutOfRange))
  /\ (scan conjunctionInsts 0 0 [] literalState
      = Ret ([-1; 0], setValue literalState 5 (types.Bool false))
      /\ pass conjunctionInsts literalState = Fault MakeSliceLen
      /\ computeConstExprs (exhaustiveProgramOf conjunctionInsts) literalState
         = Some (Fault MakeSliceLen)).
Proof. repeat split; vm_compute; reflexivity. Qed.

End FoldingFacts.

Lemma scan_skips_scoped_calls_witness :
  @scan lib scopedInsts 0 0 [] oneState
  = Ret ([0], setValue oneState 2 (types.Int (-1)))
  /\ Z.of_nat 2 ∉ [0].
Proof.
  split; [vm_compute; reflexivity |].
  apply (@scan_skips_scoped_calls lib scopedInsts oneState
           (setValue oneState 2 (types.Int (-1))) [0] 2%nat
           {| Program.ID := 4; Function := "-_"; Args := [1]; Impl := Some negImpl |}).
  - vm_compute. reflexivity.
  - reflexivity.
  - vm_compute. discriminate.
Defined.

End ProgramFacts.

(** * Properties of the attribute resolver *)

Module ResolverFacts.
Import Resolver Spec Examples.

Section ResolveFacts.
Context `{types.Lib} `{PathEval}.

(** ** Found and absent *)

(** Whenever [Resolve] returns, [found] is false exactly when the variable
    is absent from the activation. *)
Lemma Resolve_found_iff_present res vars attr value found :
  defaultResolver_Resolve res vars attr = Ret (value, found) ->
  found = false <-> Find vars (Name (Variable_ attr)) = None.
Proof.
  unfold defaultResolver_Resolve. unbind.
  destruct (Find vars _) as [obj |].
  - destruct (walkPath res vars obj (Path attr)); intros Hres; inversion Hres.
    split; discriminate.
  - intros Hres. inversion Hres. split; reflexivity.
Qed.

(** A string-keyed lookup of a missing key, as the only selector, gives
    [found = true] and the "no such key" error. *)
Lemma Resolve_missing_key res vars attr elem (m : gmap string Obj) key :
  Find vars (Name (Variable_ attr)) = Some (MapIface m) ->
  Path attr = [elem] ->
  ToValue elem vars = types.String key ->
  m !! key = None ->
  defaultResolver_Resolve res vars attr = Ret (Ref noSuchKey, true).
Proof.
  intros Hfind Hpath Hval Hkey. unfold defaultResolver_Resolve.
  rewrite Hfind, Hpath. cbn. rewrite Hval. cbn. now rewrite Hkey.
Qed.

(** ** Dominance of sentinels *)

Lemma getElem_sentinel res s elem :
  isSentinel s = true -> getElem res s elem = Ret s.
Proof.
  destruct s as [| | | | | | | | | | | | | | | | | v | | | | | | | |];
    try discriminate.
  destruct v; try discriminate; reflexivity.
Qed.

Lemma walkPath_sentinel res vars s attrPath :
  isSentinel s = true -> walkPath res vars s attrPath = Ret s.
Proof.
  intros Hs. induction attrPath as [| elem rest IH]; cbn; [reflexivity |].
  now rewrite (getElem_sentinel _ _ _ Hs).
Qed.

Lemma walkPath_app res vars obj pre post :
  walkPath res vars obj (pre ++ post)
  = obj' ← walkPath res vars obj pre; walkPath res vars obj' post.
Proof.
  revert obj. induction pre as [| elem rest IH]; intros obj; cbn; [reflexivity |].
  destruct (getElem res obj (ToValue elem vars)) as [obj' |]; cbn;
    [apply IH | reflexivity].
Qed.

(** C2. Once the selector steps taken so far ([pre]) have produced an error
    or unknown sentinel [s], every further step returns [s] itself, so both
    [ResolveRelative] and [Resolve] end with that very sentinel whatever
    selectors follow ([post]). *)
Theorem sentinel_dominates res vars (obj s : Obj) (pre post : list PathElem) :
  isSentinel s = true ->
  walkPath res vars obj pre = Ret s ->
  (forall elem, getElem res s (ToValue elem vars) = Ret s)
  /\ (forall attr,
        Path attr = pre ++ post ->
        defaultResolver_ResolveRelative res obj vars attr = Ret s)
  /\ (forall attr,
        Path attr = pre ++ post ->
        Find vars (Name (Variable_ attr)) = Some obj ->
        defaultResolver_Resolve res vars attr = Ret (s, true)).
Proof.
  intros Hs Hpre.
  assert (Hwalk : walkPath res vars obj (pre ++ post) = Ret s).
  { rewrite walkPath_app, Hpre. cbn. now apply walkPath_sentinel. }
  split; [intros elem; now apply getElem_sentinel |].
  split.
  - intros attr Hpath. unfold defaultResolver_ResolveRelative. now rewrite Hpath.
  - intros attr Hpath Hfind. unfold defaultResolver_Resolve.
    now rewrite Hfind, Hpath, Hwalk.
Qed.

(** ** A nil object *)

(** [getElem] on the nil interface: the default case of the type switch. *)
Lemma getElem_nil_panics res elem : getElem res Nil elem = Fault NilDereference.
Proof. reflexivity. Qed.

(** ** String-keyed maps *)

(** A string selector whose key is absent yields "no such key" on every
    string-keyed map shape. *)
Lemma getElem_missing_key res (key : string) :
  (forall m : gmap string Obj, m !! key = None ->
     getElem res (MapIface m) (types.String key) = Ret (Ref noSuchKey))
  /\ (forall m : gmap string string, m !! key = None ->
     getElem res (MapStr m) (types.String key) = Ret (Ref noSuchKey))
  /\ (forall m : gmap string Z, m !! key = None ->
     getElem res (MapFloat32 m) (types.String key) = Ret (Ref noSuchKey)
     /\ getElem res (MapFloat64 m) (types.String key) = Ret (Ref noSuchKey)
     /\ getElem res (MapInt m) (types.String key) = Ret (Ref noSuchKey)
     /\ getElem res (MapInt32 m) (types.String key) = Ret (Ref noSuchKey)
     /\ getElem res (MapInt64 m) (types.String key) = Ret (Ref noSuchKey))
  /\ (forall m : gmap string bool, m !! key = None ->
     getElem res (MapBool m) (types.String key) = Ret (Ref noSuchKey)).
Proof.
  split; [| split; [| split]]; intros m Hkey; repeat split; cbn;
    unfold getMapStrVal, getMapFloat32Val, getMapFloat64Val, getMapIntVal,
      getMapInt32Val, getMapInt64Val, getMapBoolVal; cbn; now rewrite Hkey.
Qed.

(** On a map of strings and on a map of arbitrary values a selector that is
    not a string is answered with [ValOrErr(elem, "no such overload")]. *)
Lemma getElem_non_string_selector res (elem : types.Val) :
  (assertString elem).2 = false ->
  (forall m, getElem res (MapIface m) elem
             = Ret (Ref (types.ValOrErr elem "no such overload")))
  /\ (forall m, getElem res (MapStr m) elem
             = Ret (Ref (types.ValOrErr elem "no such overload"))).
Proof.
  intros Hok. split; intros m; cbn; unfold getMapStrVal;
    destruct (assertString elem) as [key ok]; cbn in *; now subst ok.
Qed.

(** On the maps to a primitive element type other than string, a selector
    that is not a string is looked up as the empty key. *)
Lemma getElem_primitive_map_empty_key res (elem : types.Val) :
  (assertString elem).2 = false ->
  (forall m, getElem res (MapFloat32 m) elem
             = Ret (from_option GoFloat32 (Ref noSuchKey) (m !! ""%string)))
  /\ (forall m, getElem res (MapFloat64 m) elem
             = Ret (from_option GoFloat64 (Ref noSuchKey) (m !! ""%string)))
  /\ (forall m, getElem res (MapInt m) elem
             = Ret (from_option GoInt (Ref noSuchKey) (m !! ""%string)))
  /\ (forall m, getElem res (MapInt32 m) elem
             = Ret (from_option GoInt32 (Ref noSuchKey) (m !! ""%string)))
  /\ (forall m, getElem res (MapInt64 m) elem
             = Ret (from_option GoInt64 (Ref noSuchKey) (m !! ""%string)))
  /\ (forall m, getElem res (MapBool m) elem
             = Ret (from_option GoBool (Ref noSuchKey) (m !! ""%string))).
Proof.
  intros Hok.
  assert (Hkey : (assertString elem).1 = ""%string).
  { destruct elem; cbn in *; congruence. }
  repeat split; intros m; cbn;
    unfold getMapFloat32Val, getMapFloat64Val, getMapIntVal, getMapInt32Val,
      getMapInt64Val, getMapBoolVal;
    destruct (assertString elem) as [key ok]; cbn in *; subst key;
    now destruct (m !! ""%string).
Qed.

(** C3. The integer selector [1] on an empty [map[string]float64] or
    [map[string]bool] yields "no such key", and on a [map[string]int] that
    has the empty key it yields the element stored there; on a
    [map[string]string] the same selector yields what [ValOrErr] makes of
    "no such overload".  The functions for the primitive element types
    compute that value and do not return it. *)
Theorem getElem_primitive_map_non_string_selector res :
  getElem res (MapFloat64 ∅) (types.Int 1) = Ret (Ref noSuchKey)
  /\ getElem res (MapBool ∅) (types.Int 1) = Ret (Ref noSuchKey)
  /\ getElem res (MapInt {[ ""%string := 7 ]}) (types.Int 1) = Ret (GoInt 7)
  /\ getElem res (MapStr ∅) (types.Int 1)
     = Ret (Ref (types.ValOrErr (types.Int 1) "no such overload"))
  /\ noSuchKey <> noSuchOverload.
Proof.
  repeat split; try (vm_compute; reflexivity). discriminate.
Qed.

(** ** Unknown attributes *)

Lemma drop_lookup_cons {A} (l : list A) (j : nat) (x : A) :
  l !! j = Some x -> drop j l = x :: drop (S j) l.
Proof.
  revert j. induction l as [| y l IH]; intros [| j] Hj; cbn in *;
    try discriminate.
  - now inversion Hj.
  - now apply IH.
Qed.

(** The inner loop against the specification's wording: the candidate
    matches when every compared pair does, and then the id is that of the
    last compared element of the queried path. *)
Lemma matchCandidate_spec vars varPath candPath j candUnkID :
  (matchCandidate vars varPath candPath j candUnkID).1
  = forallb (elemMatches vars) (zip candPath (drop j varPath))
  /\ ((matchCandidate vars varPath candPath j candUnkID).1 = true ->
      (matchCandidate vars varPath candPath j candUnkID).2
      = match last (take (length candPath) (drop j varPath)) with
        | Some varElem => ID varElem
        | None => candUnkID
        end).
Proof.
  revert j candUnkID.
  induction candPath as [| candElem rest IH]; intros j candUnkID; cbn [matchCandidate].
  - split; reflexivity.
  - destruct (varPath !! j) as [varElem |] eqn:Hj.
    + rewrite (drop_lookup_cons _ _ _ Hj).
      cbn [zip zip_with forallb length take elemMatches].
      rewrite last_cons.
      destruct (IH (S j) (ID varElem)) as [IHmatch IHid].
      destruct (isWildcard (ToValue candElem vars)); cbn [orb andb].
      * split; [exact IHmatch |].
        intros Hm. rewrite (IHid Hm).
        now destruct (last (take (length rest) (drop (S j) varPath))).
      * destruct (isTrue (types.Equal (ToValue candElem vars) (ToValue varElem vars)));
          cbn [negb andb].
        -- split; [exact IHmatch |].
           intros Hm. rewrite (IHid Hm).
           now destruct (last (take (length rest) (drop (S j) varPath))).
        -- split; [reflexivity | discriminate].
    + apply lookup_ge_None in Hj. rewrite (drop_ge _ _ Hj).
      rewrite take_nil. destruct rest; split; reflexivity.
Qed.

Lemma firstUnknown_spec vars varPath varID candUnknowns :
  firstUnknown vars varPath varID candUnknowns
  = (fun cand => types.Unknown [lastComparedID varID varPath cand])
      <$> List.find (candidateMatches vars varPath) candUnknowns.
Proof.
  induction candUnknowns as [| cand rest IH]; cbn [firstUnknown List.find];
    [reflexivity |].
  destruct (matchCandidate_spec vars varPath (Path cand) 0 varID) as [Hmatch Hid].
  rewrite drop_0 in Hmatch, Hid.
  unfold candidateMatches at 1. rewrite <- Hmatch.
  destruct (matchCandidate vars varPath (Path cand) 0 varID) as [isMatch candUnkID].
  cbn [fst snd] in *. destruct isMatch.
  - cbn. unfold lastComparedID. now rewrite (Hid eq_refl).
  - exact IH.
Qed.

(** C4. [unknownResolver.Resolve] is the resolution that the specification
    describes: among the candidates declared for the variable, the first
    one whose path agrees with the queried path on every compared pair (the
    candidate element is the wildcard, or [Equal] gives true), up to the
    shorter length, yields an unknown tagged with the id of the last
    compared element of the queried path, or with the variable's id when
    nothing was compared; when no candidate matches, when the variable has
    no candidates and when the activation is not partial, the wrapped
    resolver answers. *)
Theorem unknownResolver_Resolve_spec inner vars attr :
  unknownResolver_Resolve inner vars attr = resolveUnknown inner vars attr.
Proof.
  unfold unknownResolver_Resolve, resolveUnknown.
  destruct (FindUnknowns vars) as [findUnknowns |]; [| reflexivity].
  destruct (findUnknowns (Name (Variable_ attr))) as [candUnknowns |];
    [| reflexivity].
  cbn [default from_option]. unfold id. rewrite firstUnknown_spec.
  now destruct (List.find _ candUnknowns).
Qed.

End ResolveFacts.

(** C1. A variable bound to nil is present in the activation, yet
    resolving a selector on it neither returns [found = true] with an error
    nor returns at all: [getElem] reaches its default case, where
    [reflect.TypeOf] of the nil interface is nil and [Kind] panics.  The
    same happens one step further when a map holds nil under the selected
    key (as a decoded JSON [null] does): here [x.a.b] with [x = {a: nil}]. *)
Theorem Resolve_nil_object_panics :
  (forall (L : types.Lib) (P : PathEval) res elem,
      Find (activation {[ "x"%string := Nil ]}) "x" = Some Nil
      /\ @defaultResolver_Resolve L P res (activation {[ "x"%string := Nil ]})
           (attribute "x" 1 [elem])
         = Fault NilDereference)
  /\ @defaultResolver_Resolve lib pathEval resolver
       (activation {[ "x"%string := MapIface {[ "a"%string := Nil ]} ]})
       (attribute "x" 1 [field 2 1; field 3 2])
     = Fault NilDereference.
Proof.
  split.
  - intros L P res elem. split; vm_compute; reflexivity.
  - vm_compute. reflexivity.
Qed.

Lemma sentinel_dominates_witness :
  @defaultResolver_Resolve lib pathEval resolver
    (activation {[ "x"%string := MapIface ∅ ]})
    (attribute "x" 1 [field 2 1; field 3 2])
  = Ret (Ref noSuchKey, true).
Proof.
  refine (proj2 (proj2 (@sentinel_dominates lib pathEval resolver
                          (activation {[ "x"%string := MapIface ∅ ]})
                          (MapIface ∅) (Ref noSuchKey)
                          [field 2 1] [field 3 2] _ _))
            (attribute "x" 1 [field 2 1; field 3 2]) _ _).
  - reflexivity.
  - vm_compute. reflexivity.
  - reflexivity.
  - vm_compute. reflexivity.
Defined.

(** A declared unknown [x.*]: the query [x.b] is unknown, tagged with the
    id of [b]; the query [z.b] is left to the wrapped resolver, which does
    not find [z]. *)
Example unknownResolver_wildcard :
  let vars := {| Find := fun _ => None;
                 FindUnknowns := Some (fun name =>
                   if String.eqb name "x"
                   then Some [attribute "x" 1 [field 9 3]] else None) |} in
  let inner := @NewResolver lib pathEval (adapter resolver) in
  @unknownResolver_Resolve lib pathEval inner vars (attribute "x" 1 [field 3 2])
  = Ret (Ref (types.Unknown [3]), true)
  /\ @unknownResolver_Resolve lib pathEval inner vars (attribute "z" 5 [field 3 2])
     = Ret (Nil, false).
Proof. split; vm_compute; reflexivity. Qed.

End ResolverFacts.

(** * Further properties of [program.go] *)

Module ProgramMore.
Import Program Spec Examples.

(** ** Operator binding *)

Lemma bindOperator_again disp inst :
  bindOperator disp (bindOperator disp inst) = bindOperator disp inst.
Proof.
  destruct inst as [| | call | | |]; try reflexivity.
  cbn. destruct (FindOverload disp (Function call)) as [fn |] eqn:Hfn; cbn;
    now rewrite Hfn.
Qed.

(** X1. Binding is idempotent: running [bindOperators] a second time with
    the same dispatcher changes nothing. *)
Theorem bindOperators_idempotent (disp : Dispatcher) (p : Program) :
  bindOperators disp (bindOperators disp p) = bindOperators disp p.
Proof.
  unfold bindOperators. destruct (Instructions p) as [insts |] eqn:Hinsts; cbn.
  - unfold setInstructions. cbn. f_equal. f_equal.
    rewrite <- list_fmap_compose. apply list_fmap_ext.
    intros k inst _. apply bindOperator_again.
  - now rewrite Hinsts.
Qed.

Lemma bindOperator_GetID disp inst : GetID (bindOperator disp inst) = GetID inst.
Proof.
  destruct inst as [| | call | | |]; try reflexivity.
  cbn. now destruct (FindOverload disp (Function call)).
Qed.

(** X2. Binding keeps every instruction at its position with its
    expression id, and leaves the reverse index alone, so the two still
    agree; an instruction that is not a call is unchanged, and a call keeps
    its id, function and arguments and gets the dispatcher's implementation
    when there is one, keeping the implementation it had otherwise. *)
Theorem bindOperators_keeps_positions (disp : Dispatcher) (p : Program)
        (insts : list Instruction) :
  Instructions p = Some insts ->
  exists insts',
    Instructions (bindOperators disp p) = Some insts'
    /\ GetID <$> insts' = GetID <$> insts
    /\ revInstructions (bindOperators disp p) = revInstructions p
    /\ (forall k inst, insts !! k = Some inst ->
          match inst with
          | CallExprInst call =>
              insts' !! k
              = Some (CallExprInst
                        {| ID := ID call; Function := Function call;
                           Args := Args call;
                           Impl := match FindOverload disp (Function call) with
                                   | Some fn => Some fn
                                   | None => Impl call
                                   end |})
          | _ => insts' !! k = Some inst
          end).
Proof.
  intros Hinsts. exists (bindOperator disp <$> insts).
  unfold bindOperators. rewrite Hinsts. cbn.
  split; [reflexivity |]. split.
  - rewrite <- list_fmap_compose. apply list_fmap_ext.
    intros k inst _. apply bindOperator_GetID.
  - split; [reflexivity |].
    intros k inst Hk. rewrite list_lookup_fmap, Hk.
    destruct inst as [| | call | | |]; try reflexivity.
    cbn. destruct call as [id fn args impl]. cbn.
    now destruct (FindOverload disp fn).
Qed.

Lemma bindOperators_keeps_positions_witness :
  exists insts',
    Instructions (bindOperators dispatcher exhaustiveProgram) = Some insts'
    /\ GetID <$> insts' = [2; 5; 1].
Proof.
  destruct (bindOperators_keeps_positions dispatcher exhaustiveProgram
              exhaustiveInsts eq_refl) as (insts' & Hinsts & Hids & _).
  exists insts'. split; [exact Hinsts | exact Hids].
Defined.

(** ** The reverse index that [plan] builds *)

Lemma indexInstructions_other insts i rev id :
  Forall (fun inst => GetID inst <> id) insts ->
  indexInstructions insts i rev !! id = rev !! id.
Proof.
  revert i rev. induction insts as [| inst rest IH]; intros i rev Hall; cbn;
    [reflexivity |].
  inversion Hall; subst. rewrite IH by assumption.
  now apply lookup_insert_ne.
Qed.

Lemma indexInstructions_last insts i rev k inst :
  insts !! k = Some inst ->
  Forall (fun later => GetID later <> GetID inst) (drop (S k) insts) ->
  indexInstructions insts i rev !! GetID inst = Some (i + Z.of_nat k).
Proof.
  revert i rev k. induction insts as [| first rest IH]; intros i rev k Hk Hlater;
    [discriminate |].
  destruct k as [| k]; cbn in *.
  - inversion Hk; subst. rewrite drop_0 in Hlater.
    rewrite indexInstructions_other by assumption.
    rewrite lookup_insert_eq. f_equal. lia.
  - rewrite (IH _ _ k Hk Hlater). f_equal. lia.
Qed.

Section PlanIndex.
Context `{Walker}.

(** X3. After [plan] on a program that had no instructions, looking up
    the id of an instruction gives that instruction back, provided no later
    instruction carries the same id (the last one wins). *)
Theorem plan_then_GetInstruction (p : Program) (state : evalState)
        (insts : list Instruction) (k : nat) (inst : Instruction) :
  Instructions p = None ->
  Instructions (plan p state).1 = Some insts ->
  insts !! k = Some inst ->
  Forall (fun later => GetID later <> GetID inst) (drop (S k) insts) ->
  GetInstruction (plan p state).1 (GetID inst) = Ret inst.
Proof.
  intros Hnone Hinsts Hk Hlater. unfold plan in *. rewrite Hnone in *.
  destruct (WalkExpr (expression p) (metadata p) state _) as [walked state'].
  cbn in *. subst walked. unfold GetInstruction. cbn.
  rewrite (indexInstructions_last _ _ _ _ _ Hk Hlater). cbn.
  unfold index. destruct (0 + Z.of_nat k <? 0) eqn:Hneg;
    [apply Z.ltb_lt in Hneg; lia |].
  cbn. replace (Z.to_nat (0 + Z.of_nat k)) with k by lia. now rewrite Hk.
Qed.

End PlanIndex.

Lemma plan_then_GetInstruction_witness :
  GetInstruction (@plan walker (NewProgram (literal 7) noInfo) literalState).1 7
  = Ret (PushLiteralInst 7 (types.Int 1)).
Proof.
  apply (@plan_then_GetInstruction walker (NewProgram (literal 7) noInfo)
           literalState [PushLiteralInst 7 (types.Int 1)] O
           (PushLiteralInst 7 (types.Int 1))).
  - reflexivity.
  - reflexivity.
  - reflexivity.
  - constructor.
Defined.

(** ** What folding leaves alone *)

Section FoldingMore.
Context `{types.Lib}.

Lemma computeConstExprs_fuel_frame fuel p state p' state' :
  computeConstExprs_fuel fuel p state = Some (Ret (p', state')) ->
  expression p' = expression p /\ metadata p' = metadata p
  /\ revInstructions p' = revInstructions p
  /\ flags p' = flags p /\ resultID p' = resultID p.
Proof.
  revert p state. induction fuel as [| fuel IH]; intros p state Hrun;
    cbn in Hrun; destruct (Instructions p) as [insts |];
    try discriminate; try (inversion Hrun; subst; tauto).
  destruct (pass insts state) as [[state1 | optInsts state1] | e];
    try discriminate.
  - inversion Hrun; subst. tauto.
  - apply IH in Hrun. exact Hrun.
Qed.

(** X4. Folding rewrites the instruction sequence and nothing else of the
    program: the expression, the metadata, the flags, the result id and in
    particular the reverse index are those from before, so after a fold
    that removed instructions the reverse index still holds the positions
    of the unfolded sequence. *)
Theorem computeConstExprs_keeps_reverse_index (p p' : Program)
        (state state' : evalState) :
  computeConstExprs p state = Some (Ret (p', state')) ->
  revInstructions p' = revInstructions p
  /\ expression p' = expression p /\ metadata p' = metadata p
  /\ flags p' = flags p /\ resultID p' = resultID p.
Proof.
  intros Hrun. apply computeConstExprs_fuel_frame in Hrun. tauto.
Qed.

Lemma computeConstExprs_fuel_final fuel p state p' state' :
  computeConstExprs_fuel fuel p state = Some (Ret (p', state')) ->
  match Instructions p' with
  | None => True
  | Some insts => pass insts state' = Ret (Stop state')
  end.
Proof.
  revert p state. induction fuel as [| fuel IH]; intros p state Hrun;
    cbn in Hrun; destruct (Instructions p) as [insts |] eqn:Hinsts;
    try discriminate;
    try (inversion Hrun; subst; now rewrite Hinsts).
  destruct (pass insts state) as [[state1 | optInsts state1] | e] eqn:Hpass;
    try discriminate.
  - inversion Hrun; subst. rewrite Hinsts.
    destruct (ProgramFacts.pass_stop _ _ _ Hpass) as [_ ->]. exact Hpass.
  - apply IH in Hrun. exact Hrun.
Qed.

(** X5. Folding reaches a fixpoint: run again on its own result, with the
    scratch state it left, [computeConstExprs] returns that same program
    and state. *)
Theorem computeConstExprs_idempotent (p p' : Program) (state state' : evalState) :
  computeConstExprs p state = Some (Ret (p', state')) ->
  computeConstExprs p' state' = Some (Ret (p', state')).
Proof.
  intros Hrun. apply computeConstExprs_fuel_final in Hrun.
  unfold computeConstExprs. cbn [computeConstExprs_fuel].
  destruct (Instructions p') as [insts |]; [| reflexivity].
  now rewrite Hrun.
Qed.

(** *** Calls that are never constant *)

Lemma maybeComputeConstCall_never call state :
  neverConstant call = true ->
  maybeComputeConstCall call state = Ret (false, state).
Proof.
  unfold neverConstant, maybeComputeConstCall.
  destruct (Impl call) as [impl |]; [| reflexivity].
  destruct (isIterationCall (Function call)); [reflexivity |].
  destruct (Args call) as [| a0 [| a1 [| a2 rest]]]; cbn; try reflexivity;
    discriminate.
Qed.

Lemma scan_never insts i nested constInsts state :
  allNeverConstant insts ->
  scan insts i nested constInsts state = Ret (constInsts, state).
Proof.
  revert i nested. induction insts as [| inst rest IH]; intros i nested Hall;
    [reflexivity |].
  inversion Hall as [| ? ? Hinst Hrest]; subst. cbn.
  destruct inst as [| | call | | |]; try (apply IH; assumption).
  destruct (negb (nested =? 0)); [apply IH; assumption |].
  rewrite (maybeComputeConstCall_never _ _ Hinst). cbn. apply IH; assumption.
Qed.

(** X6. A program all of whose calls are unbound, belong to the iteration
    protocol or take a number of arguments other than one or two is left
    as it is by [computeConstExprs], and so is the scratch state, whatever
    values it holds: without [bindOperators] nothing is ever folded. *)
Theorem computeConstExprs_nothing_to_fold (p : Program) (state : evalState) :
  allNeverConstant (default [] (Instructions p)) ->
  computeConstExprs p state = Some (Ret (p, state)).
Proof.
  intros Hall. unfold computeConstExprs. cbn [computeConstExprs_fuel].
  destruct (Instructions p) as [insts |]; [| reflexivity].
  cbn in Hall. unfold pass. now rewrite (scan_never _ _ _ _ _ Hall).
Qed.

End FoldingMore.

Lemma computeConstExprs_keeps_reverse_index_witness :
  revInstructions
    (setInstructions exhaustiveProgram [mkCall 1 "g" [2; 5] pairImpl])
  = {[ 2 := 0; 5 := 1; 1 := 2 ]}.
Proof.
  apply (proj1 (@computeConstExprs_keeps_reverse_index lib exhaustiveProgram
                  (setInstructions exhaustiveProgram [mkCall 1 "g" [2; 5] pairImpl])
                  literalState (setValue literalState 5 (types.Bool false))
                  ltac:(vm_compute; reflexivity))).
Defined.

Lemma computeConstExprs_idempotent_witness :
  @computeConstExprs lib
    (setInstructions exhaustiveProgram [mkCall 1 "g" [2; 5] pairImpl])
    (setValue literalState 5 (types.Bool false))
  = Some (Ret (setInstructions exhaustiveProgram [mkCall 1 "g" [2; 5] pairImpl],
               setValue literalState 5 (types.Bool false))).
Proof.
  apply (@computeConstExprs_idempotent lib exhaustiveProgram _ literalState).
  vm_compute. reflexivity.
Defined.

Lemma computeConstExprs_nothing_to_fold_witness :
  @computeConstExprs lib
    (setInstructions exhaustiveProgram
       [SelectAttrInst 2 "y";
        CallExprInst {| Program.ID := 5; Function := operators.LogicalAnd;
                        Args := [3; 4]; Impl := None |}])
    literalState
  = Some (Ret (setInstructions exhaustiveProgram
                 [SelectAttrInst 2 "y";
                  CallExprInst {| Program.ID := 5; Function := operators.LogicalAnd;
                                  Args := [3; 4]; Impl := None |}],
               literalState)).
Proof.
  apply (@computeConstExprs_nothing_to_fold lib).
  repeat constructor.
Defined.

(** ** The compacting pass *)

Lemma index_Some {A} (l : list A) (i : Z) (a : A) :
  index (Some l) i = Ret a <-> 0 <= i /\ l !! Z.to_nat i = Some a.
Proof.
  unfold index. cbn. destruct (i <? 0) eqn:Hneg.
  - apply Z.ltb_lt in Hneg. split; [discriminate | lia].
  - apply Z.ltb_ge in Hneg. destruct (l !! Z.to_nat i) as [b |].
    + split; [intros Hret; inversion Hret; auto | intros [_ Hb]; congruence].
    + split; [discriminate | intros [_ Hb]; discriminate].
Qed.

Lemma copyInsts_take insts cnt n i oi opt i' oi' opt' :
  0 <= i ->
  copyInsts insts cnt n i oi opt = Ret (i', oi', opt') ->
  i' = i + Z.of_nat n
  /\ opt' = opt ++ take n (drop (Z.to_nat i) insts).
Proof.
  revert i oi opt. induction n as [| n IH]; intros i oi opt Hi Hcopy; cbn in Hcopy.
  - inversion Hcopy; subst. rewrite take_0, app_nil_r. repeat split; lia.
  - unbind. destruct (index (Some insts) i) as [inst |] eqn:Hinst; [| discriminate].
    apply index_Some in Hinst as [_ Hinst].
    destruct ((oi <? 0) || (cnt <=? oi)); [discriminate |].
    apply IH in Hcopy as (-> & ->); [| lia].
    replace (Z.to_nat (i + 1)) with (S (Z.to_nat i)) in * by lia.
    rewrite (drop_S _ _ _ Hinst). cbn. rewrite <- app_assoc. cbn.
    repeat split; lia.
Qed.

Lemma nondecreasingFrom_weaken lo lo' js :
  lo' <= lo -> nondecreasingFrom lo js -> nondecreasingFrom lo' js.
Proof. destruct js; cbn; [tauto | intros ? [? ?]; split; [lia | assumption]]. Qed.

Lemma copyInsts_ok insts cnt n i oi opt :
  0 <= i -> (Z.to_nat i + n <= length insts)%nat ->
  0 <= oi -> oi + Z.of_nat n <= cnt ->
  copyInsts insts cnt n i oi opt
  = Ret (i + Z.of_nat n, oi + Z.of_nat n,
         opt ++ take n (drop (Z.to_nat i) insts)).
Proof.
  revert i oi opt. induction n as [| n IH]; intros i oi opt Hi Hlen Hoi Hcnt;
    cbn [copyInsts].
  - rewrite take_0, app_nil_r. cbn. rewrite !Z.add_0_r. reflexivity.
  - destruct (lookup_lt_is_Some_2 insts (Z.to_nat i)) as [inst Hinst]; [lia |].
    unbind. rewrite (proj2 (index_Some insts i inst) (conj Hi Hinst)).
    destruct ((oi <? 0) || (cnt <=? oi)) eqn:Hrange.
    { apply orb_true_iff in Hrange as [Hlo | Hhi];
        [apply Z.ltb_lt in Hlo | apply Z.leb_le in Hhi]; lia. }
    rewrite IH by lia.
    replace (Z.to_nat (i + 1)) with (S (Z.to_nat i)) by lia.
    rewrite (drop_S _ _ _ Hinst). cbn [take]. rewrite <- app_assoc. cbn [app].
    replace (i + 1 + Z.of_nat n) with (i + Z.of_nat (S n)) by lia.
    replace (oi + 1 + Z.of_nat n) with (oi + Z.of_nat (S n)) by lia.
    reflexivity.
Qed.

Lemma removeAt_none removed base insts :
  Forall (fun j => j < base \/ base + Z.of_nat (length insts) <= j) removed ->
  removeAt removed base insts = insts.
Proof.
  revert base. induction insts as [| inst rest IH]; intros base Hall; cbn;
    [reflexivity |].
  rewrite bool_decide_eq_false_2.
  - f_equal. apply IH. eapply Forall_impl; [exact Hall |].
    intros j Hj. cbn beta in *. cbn [length] in Hj. lia.
  - intros Hin. rewrite Forall_forall in Hall. specialize (Hall _ Hin).
    cbn [length] in Hall. lia.
Qed.

Lemma removeAt_app removed base l1 l2 :
  removeAt removed base (l1 ++ l2)
  = removeAt removed base l1
    ++ removeAt removed (base + Z.of_nat (length l1)) l2.
Proof.
  revert base. induction l1 as [| inst rest IH]; intros base; cbn.
  - now rewrite Z.add_0_r.
  - rewrite IH. replace (base + 1 + Z.of_nat (length rest))
      with (base + Z.pos (Pos.of_succ_nat (length rest))) by lia.
    now destruct (bool_decide (base ∈ removed)).
Qed.

Lemma removeAt_tail j removed base insts :
  j < base -> removeAt (j :: removed) base insts = removeAt removed base insts.
Proof.
  revert base. induction insts as [| inst rest IH]; intros base Hj; cbn;
    [reflexivity |].
  rewrite IH by lia.
  destruct (bool_decide (base ∈ removed)) eqn:Hin.
  - apply bool_decide_eq_true in Hin. rewrite bool_decide_eq_true_2; [reflexivity |].
    now right.
  - apply bool_decide_eq_false in Hin. rewrite bool_decide_eq_false_2; [reflexivity |].
    intros Hin'. apply elem_of_cons in Hin' as [-> | Hin']; [lia | contradiction].
Qed.

Lemma increasingFrom_bounds lo hi js :
  increasingFrom lo js -> Forall (fun j => j < hi) js ->
  Forall (fun j => lo < j) js
  /\ (js <> [] -> Z.of_nat (length js) <= hi - lo - 1).
Proof.
  revert lo. induction js as [| j rest IH]; intros lo Hinc Hhi.
  - split; [constructor | congruence].
  - destruct Hinc as [Hlo Hrest]. inversion Hhi as [| ? ? Hj Hrest_hi]; subst.
    destruct (IH j Hrest Hrest_hi) as [Habove Hlen]. split.
    + constructor; [exact Hlo |]. eapply Forall_impl; [exact Habove |].
      intros x Hx. cbn beta in *. lia.
    + intros _. cbn [length]. destruct rest as [| j' rest'].
      * cbn. lia.
      * specialize (Hlen ltac:(discriminate)). lia.
Qed.

Lemma skipConsts_exact insts cnt constInsts i oi opt :
  0 <= i <= Z.of_nat (length insts) ->
  increasingFrom (i - 1) constInsts ->
  Forall (fun j => j < Z.of_nat (length insts)) constInsts ->
  0 <= oi ->
  oi + (Z.of_nat (length insts) - i) - Z.of_nat (length constInsts) <= cnt ->
  exists i' oi',
    skipConsts insts cnt constInsts i oi opt
    = Ret (i', oi',
           opt ++ removeAt constInsts i
                    (take (Z.to_nat (i' - i)) (drop (Z.to_nat i) insts)))
    /\ i <= i' <= Z.of_nat (length insts)
    /\ oi' = oi + (i' - i) - Z.of_nat (length constInsts)
    /\ Forall (fun j => j < i') constInsts.
Proof.
  revert i oi opt. induction constInsts as [| j rest IH];
    intros i oi opt Hi Hinc Hhi Hoi Hcnt.
  - exists i, oi. cbn. rewrite Z.sub_diag. cbn. rewrite app_nil_r.
    repeat split; try lia. constructor.
  - destruct Hinc as [Hj Hrest]. inversion Hhi as [| ? ? Hjlen Hrest_hi]; subst.
    destruct (increasingFrom_bounds _ _ _ Hrest Hrest_hi) as [Habove Hlen].
    assert (Hroom : Z.of_nat (length rest) <= Z.of_nat (length insts) - j - 1).
    { destruct rest; [cbn; lia | apply Hlen; discriminate]. }
    cbn [length] in Hcnt.
    assert (Hrest' : increasingFrom (j + 1 - 1) rest)
      by (now replace (j + 1 - 1) with j by lia).
    destruct (IH (j + 1) (oi + Z.of_nat (Z.to_nat (j - i)))
                 (opt ++ take (Z.to_nat (j - i)) (drop (Z.to_nat i) insts))
                 ltac:(lia) Hrest' Hrest_hi ltac:(lia) ltac:(lia))
      as (i' & oi' & Hskip & Hi' & Hoi' & Hbelow).
    exists i', oi'. cbn [skipConsts]. unbind.
    rewrite copyInsts_ok by lia.
    replace (i + Z.of_nat (Z.to_nat (j - i))) with j by lia.
    rewrite Hskip. split; [| split; [lia | split; [cbn [length]; lia |]]].
    + f_equal. f_equal. rewrite <- app_assoc. f_equal.
      destruct (lookup_lt_is_Some_2 insts (Z.to_nat j)) as [inst Hinst]; [lia |].
      replace (Z.to_nat (i' - i))
        with (Z.to_nat (j - i) + S (Z.to_nat (i' - (j + 1))))%nat by lia.
      rewrite <- take_take_drop, drop_drop.
      replace (Z.to_nat i + Z.to_nat (j - i))%nat with (Z.to_nat j) by lia.
      rewrite (drop_S _ _ _ Hinst). cbn [take].
      rewrite removeAt_app.
      rewrite length_take_le by (rewrite length_drop; lia).
      replace (i + Z.of_nat (Z.to_nat (j - i))) with j by lia.
      rewrite (removeAt_none (j :: rest) i).
      * f_equal. cbn [removeAt]. rewrite bool_decide_eq_true_2 by (now left).
        rewrite removeAt_tail by lia.
        now replace (S (Z.to_nat j)) with (Z.to_nat (j + 1)) by lia.
      * rewrite length_take_le by (rewrite length_drop; lia).
        constructor; [lia |]. eapply Forall_impl; [exact Habove |].
        intros x Hx. cbn beta in *. lia.
    + constructor; [lia | exact Hbelow].
Qed.

Section Compaction.
Context `{types.Lib}.

(** The indices that [scan] collects never go down, start no lower than
    the position before the first instruction and stay below the length. *)
Lemma scan_nondecreasing insts i nested constInsts state constInsts' state' :
  scan insts i nested constInsts state = Ret (constInsts', state') ->
  exists added,
    constInsts' = constInsts ++ added
    /\ nondecreasingFrom (i - 1) added
    /\ Forall (fun j => j < i + Z.of_nat (length insts)) added.
Proof.
  revert i nested constInsts state.
  induction insts as [| inst rest IH]; intros i nested constInsts state Hscan;
    cbn in Hscan.
  - inversion Hscan; subst. exists []. rewrite app_nil_r. repeat split. constructor.
  - assert (Hrest : forall nested' cs st,
               scan rest (i + 1) nested' cs st = Ret (constInsts', state') ->
               exists added,
                 constInsts' = cs ++ added
                 /\ nondecreasingFrom (i - 1) added
                 /\ Forall (fun j => j < i + Z.of_nat (length (inst :: rest))) added).
    { intros nested' cs st Hscan'.
      destruct (IH _ _ _ _ Hscan') as (added & -> & Hsorted & Hbound).
      exists added. split; [reflexivity |]. split.
      - eapply nondecreasingFrom_weaken; [| exact Hsorted]. lia.
      - eapply Forall_impl; [exact Hbound |]. intros j Hj. cbn beta in *. cbn [length]. lia. }
    destruct inst as [| | call | | |]; try (apply (Hrest _ _ _ Hscan)).
    destruct (negb (nested =? 0)); [apply (Hrest _ _ _ Hscan) |].
    unbind.
    destruct (maybeComputeConstCall call state) as [[computed state1] |];
      [| discriminate].
    destruct computed; [| apply (Hrest _ _ _ Hscan)].
    destruct (IH _ _ _ _ Hscan) as (added & -> & Hsorted & Hbound).
    replace (i + 1 - 1) with i in Hsorted by lia.
    assert (Hbound' : Forall (fun j => j < i + Z.of_nat (length (CallExprInst call :: rest)))
                             added).
    { eapply Forall_impl; [exact Hbound |]. intros j Hj. cbn beta in *. cbn [length]. lia. }
    destruct (isLogical (Function call)).
    + exists ([i - 1; i] ++ added). rewrite <- !app_assoc.
      split; [reflexivity |]. split.
      * cbn. repeat split; try lia. exact Hsorted.
      * repeat constructor; cbn [length]; try lia. exact Hbound'.
    + exists ([i] ++ added). rewrite <- !app_assoc.
      split; [reflexivity |]. split.
      * cbn. repeat split; try lia. exact Hsorted.
      * repeat constructor; cbn [length]; try lia. exact Hbound'.
Qed.

Lemma skipConsts_sublist insts cnt constInsts i oi opt i' oi' opt' :
  0 <= i ->
  nondecreasingFrom (i - 1) constInsts ->
  skipConsts insts cnt constInsts i oi opt = Ret (i', oi', opt') ->
  i <= i'
  /\ exists kept,
      opt' = opt ++ kept
      /\ kept `sublist_of` take (Z.to_nat (i' - i)) (drop (Z.to_nat i) insts).
Proof.
  revert i oi opt. induction constInsts as [| j rest IH];
    intros i oi opt Hi Hsorted Hskip; cbn in Hskip.
  - inversion Hskip; subst. split; [lia |]. exists []. rewrite app_nil_r.
    split; [reflexivity | apply sublist_nil_l].
  - destruct Hsorted as [Hj Hrest]. unbind.
    destruct (copyInsts insts cnt (Z.to_nat (j - i)) i oi opt)
      as [[[i1 oi1] opt1] |] eqn:Hcopy; [| discriminate].
    apply copyInsts_take in Hcopy as (-> & ->); [| exact Hi].
    apply IH in Hskip as (Hle & kept & -> & Hkept);
      [| lia | now replace (j + 1 - 1) with j by lia].
    split; [lia |].
    exists (take (Z.to_nat (j - i)) (drop (Z.to_nat i) insts) ++ kept).
    rewrite <- app_assoc. split; [reflexivity |].
    replace (Z.to_nat (i' - i))
      with (Z.to_nat (j + 1 - i) + Z.to_nat (i' - (j + 1)))%nat by lia.
    rewrite <- take_take_drop. apply sublist_app.
    + replace (Z.to_nat (j - i)) with (min (Z.to_nat (j - i)) (Z.to_nat (j + 1 - i)))
        by lia.
      rewrite <- take_take. apply sublist_take.
    + rewrite drop_drop.
      now replace (Z.to_nat i + Z.to_nat (j + 1 - i))%nat with (Z.to_nat (j + 1)) by lia.
Qed.

Lemma pass_sublist insts state optInsts state' :
  pass insts state = Ret (Next optInsts state') ->
  optInsts `sublist_of` insts.
Proof.
  unfold pass. unbind. intros Hpass.
  destruct (scan insts 0 0 [] state) as [[constInsts state1] |] eqn:Hscan;
    [| discriminate].
  destruct (Z.of_nat (length constInsts) =? 0); [discriminate |].
  set (cnt := Z.of_nat (length insts) - Z.of_nat (length constInsts)) in *.
  destruct (cnt <? 0); [discriminate |].
  destruct (skipConsts insts cnt constInsts 0 0 []) as [[[i oi] opt] |] eqn:Hskip;
    [| discriminate].
  apply scan_nondecreasing in Hscan as (added & Hadded & Hsorted & _).
  cbn in Hadded. subst added.
  apply skipConsts_sublist in Hskip as (Hi & kept & Hopt & Hkept);
    [| lia | exact Hsorted].
  cbn in Hopt. subst opt. rewrite drop_0, Z.sub_0_r in Hkept.
  destruct (copyInsts insts cnt (Z.to_nat (cnt - oi)) i oi kept)
    as [[[i2 oi2] opt2] |] eqn:Hcopy; [| discriminate].
  apply copyInsts_take in Hcopy as (_ & ->); [| exact Hi].
  inversion Hpass; subst.
  rewrite <- (take_drop (Z.to_nat i) insts) at 2.
  apply sublist_app; [exact Hkept | apply sublist_take].
Qed.

Lemma computeConstExprs_fuel_sublist fuel p state p' state' :
  computeConstExprs_fuel fuel p state = Some (Ret (p', state')) ->
  default [] (Instructions p') `sublist_of` default [] (Instructions p).
Proof.
  revert p state. induction fuel as [| fuel IH]; intros p state Hrun;
    cbn in Hrun; destruct (Instructions p) as [insts |] eqn:Hinsts;
    try discriminate;
    try (inversion Hrun; subst; now rewrite Hinsts).
  destruct (pass insts state) as [[state1 | optInsts state1] | e] eqn:Hpass;
    try discriminate.
  - inversion Hrun; subst. now rewrite Hinsts.
  - apply IH in Hrun. cbn in *. etransitivity; [exact Hrun |].
    now apply pass_sublist in Hpass.
Qed.

(** X7. Whatever [computeConstExprs] returns, the instructions it leaves
    are instructions of the original sequence in their original order:
    folding only deletes, it neither reorders nor rewrites an instruction. *)
Theorem computeConstExprs_survivors_in_order (p p' : Program)
        (state state' : evalState) :
  computeConstExprs p state = Some (Ret (p', state')) ->
  default [] (Instructions p') `sublist_of` default [] (Instructions p).
Proof. apply computeConstExprs_fuel_sublist. Qed.

(** *** What folding writes to the scratch state *)

Lemma maybeComputeConstCall_writes call state computed state' :
  maybeComputeConstCall call state = Ret (computed, state') ->
  (forall id, id <> ID call -> values state' !! id = values state !! id)
  /\ (forall id, is_Some (values state !! id) -> is_Some (values state' !! id)).
Proof.
  unfold maybeComputeConstCall. intros Hcall.
  repeat match type of Hcall with
         | context [match ?x with _ => _ end] => destruct x
         end; inversion Hcall; subst; cbn;
    try (split; [reflexivity | tauto]);
    (split;
     [intros id Hid; now apply lookup_insert_ne
     | intros id Hsome; destruct (decide (ID call = id)) as [-> | Hne];
       [rewrite lookup_insert_eq; eauto | now rewrite lookup_insert_ne]]).
Qed.

Lemma scan_writes insts i nested constInsts state constInsts' state' :
  scan insts i nested constInsts state = Ret (constInsts', state') ->
  (forall id, id ∉ callIDs insts -> values state' !! id = values state !! id)
  /\ (forall id, is_Some (values state !! id) -> is_Some (values state' !! id)).
Proof.
  revert i nested constInsts state.
  induction insts as [| inst rest IH]; intros i nested constInsts state Hscan;
    cbn in Hscan.
  - inversion Hscan; subst. split; [reflexivity | tauto].
  - destruct inst as [| | call | | |];
      try (apply IH in Hscan; exact Hscan).
    assert (Hskip : forall n cs,
               scan rest (i + 1) n cs state = Ret (constInsts', state') ->
               (forall id, id ∉ callIDs (CallExprInst call :: rest) ->
                           values state' !! id = values state !! id)
               /\ (forall id, is_Some (values state !! id) ->
                              is_Some (values state' !! id))).
    { intros n cs Hscan'. apply IH in Hscan' as [Hsame Hkeep].
      split; [| exact Hkeep].
      intros id Hid. apply Hsame. intros Hin. apply Hid. cbn. now right. }
    destruct (negb (nested =? 0)); [apply (Hskip _ _ Hscan) |].
    unbind.
    destruct (maybeComputeConstCall call state) as [[computed state1] |] eqn:Hcall;
      [| discriminate].
    apply maybeComputeConstCall_writes in Hcall as [Hsame1 Hkeep1].
    assert (Hrest : (forall id, id ∉ callIDs rest ->
                                values state' !! id = values state1 !! id)
                    /\ (forall id, is_Some (values state1 !! id) ->
                                   is_Some (values state' !! id))).
    { destruct computed; apply IH in Hscan; exact Hscan. }
    destruct Hrest as [Hsame Hkeep]. split.
    + intros id Hid. cbn in Hid. rewrite Hsame, Hsame1; [reflexivity | |].
      * intros ->. apply Hid. now left.
      * intros Hin. apply Hid. now right.
    + intros id Hsome. apply Hkeep, Hkeep1, Hsome.
Qed.

Lemma callIDs_sublist (l1 l2 : list Instruction) (id : Z) :
  l1 `sublist_of` l2 -> id ∈ callIDs l1 -> id ∈ callIDs l2.
Proof.
  unfold callIDs. intros Hsub Hin.
  apply list_elem_of_omap in Hin as (inst & Hinst & Hid).
  apply list_elem_of_omap. exists inst. split; [| exact Hid].
  eapply elem_of_sublist; eassumption.
Qed.

Lemma computeConstExprs_fuel_writes fuel p state p' state' :
  computeConstExprs_fuel fuel p state = Some (Ret (p', state')) ->
  (forall id, id ∉ callIDs (default [] (Instructions p)) ->
              values state' !! id = values state !! id)
  /\ (forall id, is_Some (values state !! id) -> is_Some (values state' !! id)).
Proof.
  revert p state. induction fuel as [| fuel IH]; intros p state Hrun;
    cbn in Hrun; destruct (Instructions p) as [insts |] eqn:Hinsts;
    try discriminate;
    try (inversion Hrun; subst; split; [reflexivity | tauto]).
  destruct (pass insts state) as [[state1 | optInsts state1] | e] eqn:Hpass;
    try discriminate.
  - inversion Hrun; subst.
    destruct (ProgramFacts.pass_stop _ _ _ Hpass) as [_ ->].
    split; [reflexivity | tauto].
  - pose proof (pass_sublist _ _ _ _ Hpass) as Hsub.
    apply ProgramFacts.pass_next in Hpass as (constInsts & Hscan & _).
    apply scan_writes in Hscan as [Hsame1 Hkeep1].
    apply IH in Hrun as [Hsame Hkeep]. cbn in *. split.
    + intros id Hid. rewrite Hsame, Hsame1; [reflexivity | exact Hid |].
      intros Hin. apply Hid. eapply callIDs_sublist; eassumption.
    + intros id Hsome. apply Hkeep, Hkeep1, Hsome.
Qed.

(** X8. Folding writes to the scratch state only under the expression ids
    of the program's call instructions: every other id reads as before, and
    no id that had a value loses it. *)
Theorem computeConstExprs_scratch_writes (p p' : Program)
        (state state' : evalState) :
  computeConstExprs p state = Some (Ret (p', state')) ->
  (forall id, id ∉ callIDs (default [] (Instructions p)) ->
              values state' !! id = values state !! id)
  /\ (forall id, is_Some (values state !! id) -> is_Some (values state' !! id)).
Proof. apply computeConstExprs_fuel_writes. Qed.

(** *** A pass over a sequence without logical calls *)

Lemma scan_increasing insts i nested constInsts state constInsts' state' :
  noLogicalCalls insts ->
  scan insts i nested constInsts state = Ret (constInsts', state') ->
  exists added,
    constInsts' = constInsts ++ added
    /\ increasingFrom (i - 1) added
    /\ Forall (fun j => j < i + Z.of_nat (length insts)) added.
Proof.
  revert i nested constInsts state.
  induction insts as [| inst rest IH]; intros i nested constInsts state Hnone Hscan;
    cbn in Hscan.
  - inversion Hscan; subst. exists []. rewrite app_nil_r. repeat split. constructor.
  - inversion Hnone as [| ? ? Hinst Hrest_none]; subst.
    assert (Hrest : forall nested' cs st,
               scan rest (i + 1) nested' cs st = Ret (constInsts', state') ->
               exists added,
                 constInsts' = cs ++ added
                 /\ increasingFrom (i - 1) added
                 /\ Forall (fun j => j < i + Z.of_nat (length (inst :: rest))) added).
    { intros nested' cs st Hscan'.
      destruct (IH _ _ _ _ Hrest_none Hscan') as (added & -> & Hsorted & Hbound).
      exists added. split; [reflexivity |]. split.
      - destruct added; [exact I |]. destruct Hsorted. split; [lia | assumption].
      - eapply Forall_impl; [exact Hbound |].
        intros j Hj. cbn beta in *. cbn [length]. lia. }
    destruct inst as [| | call | | |]; try (apply (Hrest _ _ _ Hscan)).
    destruct (negb (nested =? 0)); [apply (Hrest _ _ _ Hscan) |].
    unbind.
    destruct (maybeComputeConstCall call state) as [[computed state1] |];
      [| discriminate].
    destruct computed; [| apply (Hrest _ _ _ Hscan)].
    rewrite Hinst in Hscan.
    destruct (IH _ _ _ _ Hrest_none Hscan) as (added & -> & Hsorted & Hbound).
    replace (i + 1 - 1) with i in Hsorted by lia.
    exists ([i] ++ added). rewrite <- !app_assoc.
    split; [reflexivity |]. split.
    + cbn. split; [lia | exact Hsorted].
    + constructor; [cbn [length]; lia |].
      eapply Forall_impl; [exact Hbound |].
      intros j Hj. cbn beta in *. cbn [length]. lia.
Qed.

(** X9. On a sequence without calls of the logical conjunction or
    disjunction a pass behaves as the scan decides: it panics only if the
    scan does (a bound call without the call form for its arity), it stops
    when the scan collected nothing, and otherwise it hands on exactly the
    instructions whose positions were not collected, in their order. *)
Theorem pass_without_logical_calls (insts : list Instruction) (state : evalState) :
  noLogicalCalls insts ->
  pass insts state
  = match scan insts 0 0 [] state with
    | Fault e => Fault e
    | Ret ([], state') => Ret (Stop state')
    | Ret (constInsts, state') => Ret (Next (removeAt constInsts 0 insts) state')
    end.
Proof.
  intros Hnone. unfold pass. unbind.
  destruct (scan insts 0 0 [] state) as [[constInsts state'] |] eqn:Hscan;
    [| reflexivity].
  destruct constInsts as [| j rest]; [reflexivity |].
  apply (scan_increasing _ _ _ _ _ _ _ Hnone) in Hscan
    as (added & Hadded & Hinc & Hbound).
  cbn in Hadded. subst added. set (constInsts := j :: rest) in *.
  destruct (increasingFrom_bounds _ _ _ Hinc Hbound) as [_ Hlen].
  specialize (Hlen ltac:(discriminate)).
  replace (Z.of_nat (length constInsts) =? 0) with false
    by (symmetry; apply Z.eqb_neq; subst constInsts; cbn [length]; lia).
  remember (Z.of_nat (length insts) - Z.of_nat (length constInsts)) as cnt eqn:Hcnt.
  replace (cnt <? 0) with false by (symmetry; apply Z.ltb_ge; lia).
  destruct (skipConsts_exact insts cnt constInsts 0 0 [])
    as (i' & oi' & Hskip & Hi' & Hoi' & Hbelow); try lia; try assumption.
  destruct (increasingFrom_bounds _ _ _ Hinc Hbelow) as [_ Hlen'].
  specialize (Hlen' ltac:(discriminate)).
  rewrite Hskip. rewrite copyInsts_ok by lia.
  f_equal. f_equal. cbn [app]. rewrite drop_0.
  rewrite Z.sub_0_r.
  replace (Z.to_nat (cnt - oi')) with (length insts - Z.to_nat i')%nat by lia.
  rewrite <- (length_drop insts (Z.to_nat i')), firstn_all.
  rewrite <- (take_drop (Z.to_nat i') insts) at 3.
  rewrite removeAt_app. f_equal. symmetry. apply removeAt_none.
  eapply Forall_impl; [exact Hbelow |]. intros x Hx. cbn beta in *.
  rewrite length_take. lia.
Qed.

End Compaction.

Lemma computeConstExprs_survivors_in_order_witness :
  [mkCall 1 "g" [2; 5] pairImpl] `sublist_of` exhaustiveInsts.
Proof.
  apply (@computeConstExprs_survivors_in_order lib exhaustiveProgram
           (setInstructions exhaustiveProgram [mkCall 1 "g" [2; 5] pairImpl])
           literalState (setValue literalState 5 (types.Bool false))).
  vm_compute. reflexivity.
Defined.

Lemma computeConstExprs_scratch_writes_witness :
  values (setValue literalState 5 (types.Bool false)) !! 3
  = values literalState !! 3.
Proof.
  apply (proj1 (@computeConstExprs_scratch_writes lib exhaustiveProgram
                  (setInstructions exhaustiveProgram [mkCall 1 "g" [2; 5] pairImpl])
                  literalState (setValue literalState 5 (types.Bool false))
                  ltac:(vm_compute; reflexivity))).
  vm_compute. intros Hin.
  repeat (apply elem_of_cons in Hin as [Hin | Hin]; [discriminate |]).
  now apply elem_of_nil in Hin.
Defined.

Lemma pass_without_logical_calls_witness :
  @pass lib scopedInsts oneState
  = Ret (Next [PushScopeInst 10; mkCall 4 "-_" [1] negImpl; PopScopeInst 11]
              (setValue oneState 2 (types.Int (-1)))).
Proof.
  rewrite (@pass_without_logical_calls lib scopedInsts oneState).
  - vm_compute. reflexivity.
  - repeat constructor.
Defined.

(** ** Source locations *)

Lemma last_cons_default {A} (x : A) (l : list A) (d d' : A) :
  List.last (x :: l) d = List.last (x :: l) d'.
Proof.
  revert x. induction l as [| y l IH]; intros x; [reflexivity |].
  change (List.last (y :: l) d = List.last (y :: l) d'). apply IH.
Qed.

Lemma lineLoop_prefix pre rest exprOffset index lineIndex lineOffset :
  Forall (fun offset => offset <= exprOffset) pre ->
  lineLoop (pre ++ rest) exprOffset index lineIndex lineOffset
  = lineLoop rest exprOffset (index + Z.of_nat (length pre))
             (if pre is [] then lineIndex else index + Z.of_nat (length pre) - 1)
             (List.last pre lineOffset).
Proof.
  revert index lineIndex lineOffset.
  induction pre as [| offset pre IH]; intros index lineIndex lineOffset Hall.
  - cbn. now rewrite Z.add_0_r.
  - inversion Hall as [| ? ? Hle Hpre]; subst. cbn [app lineLoop].
    destruct (offset >? exprOffset) eqn:Hgt; [apply Z.gtb_lt in Hgt; lia |].
    rewrite IH by assumption. cbn [length].
    replace (index + 1 + Z.of_nat (length pre))
      with (index + Z.of_nat (S (length pre))) by lia.
    destruct pre as [| offset' pre'].
    + cbn [length List.last]. now replace (index + Z.of_nat 1 - 1) with index by lia.
    + now rewrite (last_cons_default offset' pre' offset lineOffset).
Qed.

(** X10. For an expression whose offset is recorded, [IDLocation] reports
    as line the number of leading line offsets that do not exceed it (1
    when there is none), and takes the column (in [int32] arithmetic) from
    the first line offset that exceeds the expression's, or from the last
    line offset when none does. *)
Theorem IDLocation_reports (m : exprMetadata) (exprID exprOffset : Z) :
  Positions (info m) !! exprID = Some exprOffset ->
  (forall pre offset post,
      LineOffsets (info m) = pre ++ offset :: post ->
      Forall (fun o => o <= exprOffset) pre ->
      exprOffset < offset ->
      IDLocation m exprID
      = (Some (NewLocation (Z.max 1 (Z.of_nat (length pre)))
                           (wrap32 (exprOffset - offset))), true))
  /\ (Forall (fun o => o <= exprOffset) (LineOffsets (info m)) ->
      IDLocation m exprID
      = (Some (NewLocation (Z.max 1 (Z.of_nat (length (LineOffsets (info m)))))
                           (wrap32 (exprOffset - List.last (LineOffsets (info m)) 0))),
         true)).
Proof.
  intros Hpos. unfold IDLocation, IDOffset. rewrite Hpos. split.
  - intros pre offset post -> Hpre Hlt.
    rewrite (lineLoop_prefix _ _ _ _ _ _ Hpre). cbn [lineLoop].
    replace (offset >? exprOffset) with true by (symmetry; apply Z.gtb_lt; lia).
    destruct pre; cbn [length]; do 3 f_equal; lia.
  - intros Hall. rewrite <- (app_nil_r (LineOffsets (info m))) at 1.
    rewrite (lineLoop_prefix _ _ _ _ _ _ Hall). cbn [lineLoop].
    destruct (LineOffsets (info m)); cbn [length]; do 3 f_equal; lia.
Qed.

Lemma IDLocation_reports_witness :
  IDLocation twoLines 7 = (Some (NewLocation 1 (wrap32 (5 - 10))), true).
Proof.
  apply (proj1 (IDLocation_reports twoLines 7 5 ltac:(vm_compute; reflexivity))
           [0] 10 []).
  - reflexivity.
  - repeat constructor. lia.
  - lia.
Defined.

End ProgramMore.

(** * Further properties of the attribute resolver *)

Module ResolverMore.
Import Resolver Spec Examples.

Section Elements.
Context `{types.Lib}.

(** ** Maps and slices *)

(** X11. On each of the eight string-keyed map shapes a string selector
    returns the element stored under that key, as a dynamic value, and "no
    such key" when there is none. *)
Theorem getElem_map_lookup res (obj : Obj) (m : gmap string Obj) (key : string) :
  mapView obj = Some m ->
  getElem res obj (types.String key) = Ret (default (Ref noSuchKey) (m !! key)).
Proof.
  intros Hview.
  destruct obj; try discriminate; cbn in Hview; inversion Hview; subst; cbn;
    unfold getMapStrVal, getMapFloat32Val, getMapFloat64Val, getMapIntVal,
      getMapInt32Val, getMapInt64Val, getMapBoolVal; cbn;
    rewrite ?lookup_fmap;
    match goal with |- context [?m0 !! key] => now destruct (m0 !! key) end.
Qed.

Lemma getListVal_fmap {A} (wrapElem : A -> Obj) (l : list A) (i : types.Val) :
  getListVal wrapElem l i = getListVal id (wrapElem <$> l) i.
Proof.
  unfold getListVal. destruct (assertInt i) as [idx ok].
  destruct (negb ok); [reflexivity |].
  destruct (idx <? 0); [reflexivity |].
  rewrite list_lookup_fmap. now destruct (l !! Z.to_nat idx).
Qed.

Lemma getElem_listView res obj l i :
  listView obj = Some l -> getElem res obj i = Ret (getListVal id l i).
Proof.
  intros Hview.
  destruct obj; try discriminate; cbn in Hview; inversion Hview; subst; cbn;
    unfold getListIFaceVal, getListStrVal, getListFloat32Val, getListFloat64Val,
      getListIntVal, getListInt32Val, getListInt64Val;
    now rewrite <- ?getListVal_fmap.
Qed.

(** X12. On each of the seven slice shapes an integer selector within
    bounds returns the element at that index; a negative index or one at or
    beyond the length yields what [ValOrErr] makes of "index out of range";
    a selector that is not an integer yields what it makes of "no such
    overload".  None of these panics. *)
Theorem getElem_list_index res (obj : Obj) (l : list Obj) :
  listView obj = Some l ->
  (forall (k : nat) v, l !! k = Some v ->
      getElem res obj (types.Int (Z.of_nat k)) = Ret v)
  /\ (forall idx, idx < 0 \/ Z.of_nat (length l) <= idx ->
      getElem res obj (types.Int idx)
      = Ret (Ref (types.ValOrErr (types.Int idx) "index out of range")))
  /\ (forall i, (assertInt i).2 = false ->
      getElem res obj i = Ret (Ref (types.ValOrErr i "no such overload"))).
Proof.
  intros Hview. split; [| split].
  - intros k v Hk. rewrite (getElem_listView _ _ _ _ Hview).
    unfold getListVal. cbn.
    replace (Z.of_nat k <? 0) with false by (symmetry; apply Z.ltb_ge; lia).
    now rewrite Nat2Z.id, Hk.
  - intros idx Hidx. rewrite (getElem_listView _ _ _ _ Hview).
    unfold getListVal. cbn. destruct (idx <? 0) eqn:Hneg; [reflexivity |].
    apply Z.ltb_ge in Hneg. rewrite (proj2 (lookup_ge_None l (Z.to_nat idx)));
      [reflexivity | lia].
  - intros i Hi. rewrite (getElem_listView _ _ _ _ Hview).
    unfold getListVal. destruct (assertInt i) as [idx ok]. cbn in Hi.
    now subst ok.
Qed.

(** ** Where a step can panic *)

Lemma maybeUnwrapValue_fault v p :
  maybeUnwrapValue v = Fault p <-> v = Value_nil /\ p = NilDereference.
Proof.
  destruct v; cbn; split; try discriminate; try (intros [? _]; discriminate).
  - intros Hf. inversion Hf. auto.
  - intros [_ ->]. reflexivity.
Qed.

(** X13. Selecting in a [Struct] or a [ListValue] panics exactly when the
    selected field or element is a nil [*structpb.Value]; any other
    selection, missing keys and indices out of range included, returns. *)
Theorem struct_selection_panics_on_nil_value
        (fields : gmap string PbValue) (elems : list PbValue)
        (k : types.Val) (p : Panic) :
  (getStructField fields k = Fault p
   <-> p = NilDereference
       /\ exists key, k = types.String key /\ fields !! key = Some Value_nil)
  /\ (getListValueElem elems k = Fault p
      <-> p = NilDereference
          /\ exists idx, k = types.Int idx /\ 0 <= idx
                         /\ elems !! Z.to_nat idx = Some Value_nil).
Proof.
  split.
  - unfold getStructField. split.
    + destruct k as [key | | | | | | | |]; cbn; try discriminate.
      destruct (fields !! key) as [v |] eqn:Hv; [| discriminate].
      intros Hf. apply maybeUnwrapValue_fault in Hf as [-> ->]. eauto.
    + intros (-> & key & -> & Hkey). cbn. now rewrite Hkey.
  - unfold getListValueElem. split.
    + destruct k as [| idx | | | | | | |]; cbn; try discriminate.
      destruct (idx <? 0) eqn:Hneg; [discriminate |]. apply Z.ltb_ge in Hneg.
      destruct (elems !! Z.to_nat idx) as [v |] eqn:Hv; [| discriminate].
      intros Hf. apply maybeUnwrapValue_fault in Hf as [-> ->]. eauto.
    + intros (-> & idx & -> & Hidx & Helem). cbn.
      replace (idx <? 0) with false by (symmetry; apply Z.ltb_ge; lia).
      now rewrite Helem.
Qed.

Lemma getStructField_fault fields k p :
  getStructField fields k = Fault p -> p = NilDereference.
Proof.
  unfold getStructField. destruct (assertString k) as [key ok].
  destruct (negb ok); [discriminate |].
  destruct (fields !! key); [| discriminate].
  intros Hf. now apply maybeUnwrapValue_fault in Hf as [_ ->].
Qed.

Lemma getListValueElem_fault elems i p :
  getListValueElem elems i = Fault p -> p = NilDereference.
Proof.
  unfold getListValueElem. destruct (assertInt i) as [idx ok].
  destruct (negb ok); [discriminate |]. cbn.
  destruct (idx <? 0); [discriminate |].
  destruct (elems !! Z.to_nat idx); [| discriminate].
  intros Hf. now apply maybeUnwrapValue_fault in Hf as [_ ->].
Qed.

Lemma getProtoField_fault res elem p :
  forall msg, getProtoField res msg elem = Fault p -> p = NilDereference.
Proof.
  fix IH 1.
  intros [| typeUrl [unpacked |] | v | fields | elems | h]; cbn;
    try discriminate.
  - apply IH.
  - destruct v; try discriminate.
    + apply getStructField_fault.
    + apply getListValueElem_fault.
  - apply getStructField_fault.
  - apply getListValueElem_fault.
Qed.

(** X14. A selector step panics only on the nil interface or inside a
    protocol-buffer message, and then with a nil dereference: on maps,
    slices, CEL values, Go scalars and every other native value [getElem]
    returns, with an element or an error value. *)
Theorem getElem_panics_only_on_nil_or_message res (obj : Obj)
        (elem : types.Val) (p : Panic) :
  getElem res obj elem = Fault p ->
  p = NilDereference /\ (obj = Nil \/ exists msg, obj = Proto msg).
Proof.
  destruct obj as [| m | | | | | | | | | | | | | | | msg | v | | | | | | | | k h];
    cbn; try discriminate.
  - intros Hf. inversion Hf. auto.
  - destruct (assertString elem) as [key ok].
    destruct (negb ok); [discriminate |]. destruct (m !! key); discriminate.
  - intros Hf. apply getProtoField_fault in Hf. eauto.
  - destruct v; discriminate.
  - destruct k; discriminate.
Qed.

End Elements.

Section Paths.
Context `{types.Lib} `{PathEval}.

(** X15. Resolution composes along the path: resolving an attribute whose
    path is [pre ++ post] is resolving the attribute with the path [pre]
    and, when the variable was found, resolving [post] relative to that
    result; an absent variable and a panic on the way are passed on. *)
Theorem Resolve_composes res vars (attr : Attribute) (pre post : list PathElem) :
  Path attr = pre ++ post ->
  defaultResolver_Resolve res vars attr
  = '(v, found) ← defaultResolver_Resolve res vars (withPath attr pre);
    if (found : bool) then
      v' ← defaultResolver_ResolveRelative res v vars (withPath attr post);
      Ret (v', true)
    else Ret (v, false).
Proof.
  intros Hpath. unfold defaultResolver_Resolve, defaultResolver_ResolveRelative.
  cbn [withPath Variable_ Path]. rewrite Hpath.
  destruct (Find vars (Name (Variable_ attr))) as [obj |]; [| reflexivity].
  rewrite ResolverFacts.walkPath_app. unbind.
  now destruct (walkPath res vars obj pre).
Qed.

(** X16. The Go scalars are leaves: whatever selectors are applied to a
    string, boolean, integer or floating-point value, one or many, the
    result is the "no such overload" error. *)
Theorem scalars_are_leaves res vars (obj : Obj) (attr : Attribute) :
  isScalar obj = true ->
  Path attr <> [] ->
  defaultResolver_ResolveRelative res obj vars attr = Ret (Ref noSuchOverload).
Proof.
  intros Hscalar Hpath. unfold defaultResolver_ResolveRelative.
  destruct (Path attr) as [| elem rest]; [congruence |]. cbn [walkPath].
  assert (Hstep : getElem res obj (ToValue elem vars) = Ret (Ref noSuchOverload)).
  { destruct obj; try discriminate; reflexivity. }
  rewrite Hstep. cbn. now apply ResolverFacts.walkPath_sentinel.
Qed.

(** ** [unknownResolver] *)

Lemma matchCandidate_nothing_to_compare vars varPath candPath candUnkID :
  candPath = [] \/ varPath = [] ->
  matchCandidate vars varPath candPath 0 candUnkID = (true, candUnkID).
Proof.
  intros [-> | ->]; [reflexivity |]. now destruct candPath.
Qed.

(** X17. When the first candidate declared for the variable is the bare
    variable, or when the query is the bare variable and it has any
    candidate at all, the result is an unknown tagged with the variable's
    id and [found] is true: the wrapped resolver is not consulted, so this
    holds even for a variable that the activation does not bind. *)
Theorem unknown_bare_variable inner vars (attr cand : Attribute)
        (findUnknowns : string -> option (list Attribute))
        (rest : list Attribute) :
  FindUnknowns vars = Some findUnknowns ->
  findUnknowns (Name (Variable_ attr)) = Some (cand :: rest) ->
  Path cand = [] \/ Path attr = [] ->
  unknownResolver_Resolve inner vars attr
  = Ret (Ref (types.Unknown [VarID (Variable_ attr)]), true).
Proof.
  intros Hpartial Hcands Hbare. unfold unknownResolver_Resolve.
  rewrite Hpartial, Hcands. cbn [firstUnknown].
  now rewrite matchCandidate_nothing_to_compare.
Qed.

End Paths.

(** ** [listeningResolver] *)

Lemma ancestorIndex_found path i ancestorID k :
  ancestorIndex path i ancestorID = Some k ->
  exists pre elem post,
    path = pre ++ elem :: post
    /\ k = (i + length pre)%nat
    /\ ID elem = ancestorID
    /\ Forall (fun e => ID e <> ancestorID) pre.
Proof.
  revert i. induction path as [| first rest IH]; intros i Hfound; cbn in Hfound;
    [discriminate |].
  destruct (ID first =? ancestorID) eqn:Hid.
  - inversion Hfound; subst. apply Z.eqb_eq in Hid.
    exists [], first, rest. repeat split; [cbn; lia | exact Hid | constructor].
  - apply Z.eqb_neq in Hid. apply IH in Hfound as (pre & elem & post & -> & -> & He & Hpre).
    exists (first :: pre), elem, post. repeat split;
      [cbn; lia | exact He | constructor; assumption].
Qed.

Lemma ancestorIndex_none path i ancestorID :
  ancestorIndex path i ancestorID = None <->
  Forall (fun e => ID e <> ancestorID) path.
Proof.
  revert i. induction path as [| first rest IH]; intros i; cbn.
  - split; [constructor | reflexivity].
  - destruct (ID first =? ancestorID) eqn:Hid.
    + apply Z.eqb_eq in Hid. split; [discriminate |].
      intros Hall. inversion Hall; subst. contradiction.
    + apply Z.eqb_neq in Hid. rewrite IH. split.
      * intros Hall. constructor; assumption.
      * intros Hall. now inversion Hall.
Qed.

Lemma ancestorAttr_prefix attr ancestorID :
  Variable_ (ancestorAttr attr ancestorID) = Variable_ attr
  /\ Path (ancestorAttr attr ancestorID) `prefix_of` Path attr.
Proof.
  unfold ancestorAttr. destruct (VarID (Variable_ attr) =? ancestorID).
  - split; [reflexivity | apply prefix_nil].
  - destruct (ancestorIndex (Path attr) 0 ancestorID) as [k |].
    + split; [reflexivity | apply prefix_take].
    + split; reflexivity.
Qed.

(** X18. [ancestorAttr] answers with the same variable and the shortest
    prefix of the path that ends with the given id: the empty path when the
    variable carries the id, otherwise the path up to and including the
    first element that carries it, and the attribute itself when nothing
    does. *)
Theorem ancestorAttr_shortest_prefix (attr : Attribute) (ancestorID : Z) :
  Variable_ (ancestorAttr attr ancestorID) = Variable_ attr
  /\ Path (ancestorAttr attr ancestorID) `prefix_of` Path attr
  /\ (VarID (Variable_ attr) = ancestorID ->
      Path (ancestorAttr attr ancestorID) = [])
  /\ (VarID (Variable_ attr) <> ancestorID ->
      (forall pre elem post,
          Path attr = pre ++ elem :: post ->
          ID elem = ancestorID ->
          Forall (fun e => ID e <> ancestorID) pre ->
          Path (ancestorAttr attr ancestorID) = pre ++ [elem])
      /\ (Forall (fun e => ID e <> ancestorID) (Path attr) ->
          ancestorAttr attr ancestorID = attr)).
Proof.
  destruct (ancestorAttr_prefix attr ancestorID) as [Hvar Hprefix].
  split; [exact Hvar |]. split; [exact Hprefix |]. split.
  - intros Hid. unfold ancestorAttr.
    now replace (VarID (Variable_ attr) =? ancestorID) with true
      by (symmetry; now apply Z.eqb_eq).
  - intros Hid. unfold ancestorAttr.
    replace (VarID (Variable_ attr) =? ancestorID) with false
      by (symmetry; now apply Z.eqb_neq).
    split.
    + intros pre elem post Hpath Helem Hpre.
      destruct (ancestorIndex (Path attr) 0 ancestorID) as [k |] eqn:Hk.
      * apply ancestorIndex_found in Hk
          as (pre' & elem' & post' & Hpath' & -> & Helem' & Hpre').
        cbn [Path]. rewrite Hpath' at 1.
        assert (Hsame : pre' = pre).
        { rewrite Hpath in Hpath'. clear -Hpath' Helem Helem' Hpre Hpre'.
          revert pre' Hpath' Hpre'. induction pre as [| e pre IH];
            intros [| e' pre'] Heq Hpre'; cbn in *.
          - reflexivity.
          - inversion Heq; subst. inversion Hpre'; subst. contradiction.
          - inversion Heq; subst. inversion Hpre; subst. contradiction.
          - inversion Heq; subst. inversion Hpre; inversion Hpre'; subst.
            f_equal. now apply IH. }
        subst pre'. rewrite Hpath in Hpath'.
        apply app_inv_head in Hpath'. inversion Hpath'; subst.
        replace (S (0 + length pre)) with (length (pre ++ [elem']))
          by (rewrite length_app; cbn; lia).
        change (elem' :: post') with ([elem'] ++ post').
        rewrite app_assoc, take_app_length. reflexivity.
      * apply ancestorIndex_none in Hk. rewrite Hpath in Hk.
        apply Forall_app in Hk as [_ Hk]. inversion Hk; subst. contradiction.
    + intros Hall. apply (ancestorIndex_none _ O) in Hall. now rewrite Hall.
Qed.

Ltac refute :=
  repeat match goal with
         | H : _ /\ _ |- _ => destruct H
         | H : exists _, _ |- _ => destruct H
         end;
  first [discriminate | congruence].

Ltac both_false :=
  split; [let Hs := fresh in intros Hs; cbv in Hs; discriminate
         | let HP := fresh in intros HP; refute].

Ltac both_true := split; [intros _; repeat split; eauto | intros _; reflexivity].

Ltac notified_with reported status :=
  split; [reflexivity |];
  exists reported, status;
  split; [reflexivity |];
  split; [first [reflexivity | apply ancestorAttr_prefix] |];
  split; [first [reflexivity | apply ancestorAttr_prefix] |];
  split; [first [intros _; reflexivity | intros Hne; congruence] |];
  split; [first [both_true | both_false] |];
  split; [first [both_true | both_false] |];
  split; [first [both_true | both_false] |];
  auto.

(** X19. When the listening resolver returns, its result is that of the
    wrapped resolver, unchanged, and exactly one notification was added
    after those made before.  The notification names the queried variable
    with a prefix of the queried path, the whole attribute unless the
    result is an unknown, and its status is "no such variable" exactly when
    [found] is false, "unknown" exactly for a found unknown, "no such
    attribute" exactly for a found error, and "found" otherwise. *)
Theorem listeningResolver_notifies_once (inner : ResolverI) vars
        (attr : Attribute) (notified notified' : Notifications)
        (v : Obj) (found : bool) :
  listeningResolver_Resolve inner vars attr notified = Ret (v, found, notified') ->
  Resolve inner vars attr = Ret (v, found)
  /\ exists reported status,
      notified' = notified ++ [(reported, status)]
      /\ Variable_ reported = Variable_ attr
      /\ Path reported `prefix_of` Path attr
      /\ (status <> UnknownAttribute -> reported = attr)
      /\ (status = NoSuchVariable <-> found = false)
      /\ (status = UnknownAttribute
          <-> found = true /\ exists ids, v = Ref (types.Unknown ids))
      /\ (status = NoSuchAttribute
          <-> found = true /\ exists format args, v = Ref (types.Err format args))
      /\ (status = FoundAttribute \/ status = NoSuchVariable
          \/ status = NoSuchAttribute \/ status = UnknownAttribute).
Proof.
  unfold listeningResolver_Resolve. unbind.
  destruct (Resolve inner vars attr) as [[v0 found0] |]; [| discriminate].
  destruct found0; cbn [negb].
  - destruct v0 as [| | | | | | | | | | | | | | | | | r | | | | | | | |];
      try (intros Hret; inversion Hret; subst; clear Hret;
           now notified_with attr FoundAttribute).
    destruct r as [| | | | | format args | ids | |];
      try (intros Hret; inversion Hret; subst; clear Hret;
           now notified_with attr FoundAttribute).
    + intros Hret; inversion Hret; subst; clear Hret.
      now notified_with attr NoSuchAttribute.
    + destruct ids as [| unk0 ids]; [discriminate |].
      intros Hret; inversion Hret; subst; clear Hret.
      now notified_with (ancestorAttr attr unk0) UnknownAttribute.
  - intros Hret; inversion Hret; subst; clear Hret.
    now notified_with attr NoSuchVariable.
Qed.

(** X20. The listening resolver panics only when the wrapped resolver
    does, with the same panic, or when the wrapped resolver finds an
    unknown that holds no expression id, whose first id it then reads out
    of range. *)
Theorem listeningResolver_panics (inner : ResolverI) vars
        (attr : Attribute) (notified : Notifications) (p : Panic) :
  listeningResolver_Resolve inner vars attr notified = Fault p
  <-> Resolve inner vars attr = Fault p
      \/ (Resolve inner vars attr = Ret (Ref (types.Unknown []), true)
          /\ p = IndexOutOfRange).
Proof.
  unfold listeningResolver_Resolve. unbind.
  destruct (Resolve inner vars attr) as [[v found] | e].
  - destruct found; cbn [negb].
    + destruct v as [| | | | | | | | | | | | | | | | | r | | | | | | | |];
        try (split; [discriminate | intros [Hf | [Hf _]]; discriminate]).
      destruct r as [| | | | | format args | ids | |];
        try (split; [discriminate | intros [Hf | [Hf _]]; discriminate]).
      destruct ids as [| unk0 ids].
      * split; [intros Hf; inversion Hf; auto | intros [Hf | [_ ->]]; [discriminate | reflexivity]].
      * split; [discriminate | intros [Hf | [Hf _]]; discriminate].
    + split; [discriminate | intros [Hf | [Hf _]]; discriminate].
  - split; [intros Hf; inversion Hf; auto
           | intros [Hf | [Hf _]]; [inversion Hf; reflexivity | discriminate]].
Qed.

(** ** Witnesses *)

Lemma getElem_map_lookup_witness :
  @getElem lib resolver (MapStr {[ "a"%string := "v"%string ]}) (types.String "a")
  = Ret (default (Ref noSuchKey)
                 ((GoString <$> ({[ "a"%string := "v"%string ]} : gmap string string))
                    !! "a"%string)).
Proof.
  apply (@getElem_map_lookup lib resolver
           (MapStr {[ "a"%string := "v"%string ]})
           (GoString <$> {[ "a"%string := "v"%string ]}) "a").
  reflexivity.
Defined.

Lemma getElem_list_index_witness :
  @getElem lib resolver (ListInt [10; 20; 30]) (types.Int (Z.of_nat 2))
  = Ret (GoInt 30)
  /\ @getElem lib resolver (ListInt [10; 20; 30]) (types.Int 3)
     = Ret (Ref (@types.ValOrErr lib (types.Int 3) "index out of range"))
  /\ @getElem lib resolver (ListInt [10; 20; 30]) (types.Int (-1))
     = Ret (Ref (@types.ValOrErr lib (types.Int (-1)) "index out of range")).
Proof.
  destruct (@getElem_list_index lib resolver (ListInt [10; 20; 30])
              (GoInt <$> [10; 20; 30]) eq_refl) as (Hin & Hout & _).
  split; [apply (Hin 2%nat (GoInt 30)); reflexivity |].
  split; [apply (Hout 3); right; cbn; lia | apply (Hout (-1)); left; lia].
Defined.

Lemma getElem_panics_only_on_nil_or_message_witness :
  NilDereference = NilDereference
  /\ (Nil = Nil \/ exists msg, Nil = Proto msg).
Proof.
  apply (@getElem_panics_only_on_nil_or_message lib resolver Nil (types.Int 0)).
  reflexivity.
Defined.

Lemma Resolve_composes_witness :
  @defaultResolver_Resolve lib pathEval resolver
    (activation {[ "x"%string := MapIface {[ "a"%string := MapStr {[ "b"%string := "v"%string ]} ]} ]})
    (attribute "x" 1 [field 2 1; field 3 2])
  = '(v, found) ← @defaultResolver_Resolve lib pathEval resolver
      (activation {[ "x"%string := MapIface {[ "a"%string := MapStr {[ "b"%string := "v"%string ]} ]} ]})
      (withPath (attribute "x" 1 [field 2 1; field 3 2]) [field 2 1]);
    if (found : bool) then
      v' ← @defaultResolver_ResolveRelative lib pathEval resolver v
        (activation {[ "x"%string := MapIface {[ "a"%string := MapStr {[ "b"%string := "v"%string ]} ]} ]})
        (withPath (attribute "x" 1 [field 2 1; field 3 2]) [field 3 2]);
      Ret (v', true)
    else Ret (v, false).
Proof.
  apply (@Resolve_composes lib pathEval). reflexivity.
Defined.

Lemma scalars_are_leaves_witness :
  @defaultResolver_ResolveRelative lib pathEval resolver (GoString "v")
    (activation ∅) (attribute "x" 1 [field 2 1; field 3 2])
  = Ret (Ref noSuchOverload).
Proof.
  apply (@scalars_are_leaves lib pathEval); [reflexivity | discriminate].
Defined.

Lemma unknown_bare_variable_witness :
  @unknownResolver_Resolve lib pathEval (constResolver (Ret (Nil, false)))
    {| Find := fun _ => None;
       FindUnknowns := Some (fun _ => Some [attribute "x" 1 []]) |}
    (attribute "x" 1 [field 2 1])
  = Ret (Ref (types.Unknown [1]), true).
Proof.
  apply (@unknown_bare_variable lib pathEval (constResolver (Ret (Nil, false)))
           {| Find := fun _ => None;
              FindUnknowns := Some (fun _ => Some [attribute "x" 1 []]) |}
           (attribute "x" 1 [field 2 1]) (attribute "x" 1 [])
           (fun _ => Some [attribute "x" 1 []]) []).
  - reflexivity.
  - reflexivity.
  - left. reflexivity.
Defined.

Lemma listeningResolver_notifies_once_witness :
  exists reported status,
    [(attribute "x" 1 [], FoundAttribute); (attribute "y" 2 [], NoSuchVariable)]
    = [(attribute "x" 1 [], FoundAttribute)] ++ [(reported, status)]
    /\ (status = NoSuchVariable <-> false = false).
Proof.
  destruct (listeningResolver_notifies_once (constResolver (Ret (Nil, false)))
              (activation ∅) (attribute "y" 2 [])
              [(attribute "x" 1 [], FoundAttribute)]
              [(attribute "x" 1 [], FoundAttribute); (attribute "y" 2 [], NoSuchVariable)]
              Nil false eq_refl)
    as (_ & reported & status & Hlog & _ & _ & _ & Hstatus & _).
  exists reported, status. split; [exact Hlog | exact Hstatus].
Defined.

End ResolverMore.

(** * Properties of the validator helpers of package [cel] *)

Module celFacts.
Import cel.

(** X21. [isOptionalIndex] says whether the index is one of the optional
    indices. *)
Theorem isOptionalIndex_iff (i : Z) (optIndices : list Z) :
  isOptionalIndex i optIndices = true <-> i ∈ optIndices.
Proof.
  induction optIndices as [| optInd rest IH]; cbn.
  - split; [discriminate | intros Hin; now apply elem_of_nil in Hin].
  - destruct (i =? optInd) eqn:Heq.
    + apply Z.eqb_eq in Heq as ->. split; [intros _; now left | reflexivity].
    + apply Z.eqb_neq in Heq. rewrite IH. split.
      * intros Hin. now right.
      * intros Hin. apply elem_of_cons in Hin as [-> | Hin]; [contradiction | exact Hin].
Qed.

Ltac not_aggregate :=
  match goal with
  | H : isAggregate _ = true |- _ => cbn in H; discriminate H
  end.

(** X22. [hasStringFormatAncestor] holds exactly when, going up from the
    node, a call of [format] is met after list and map nodes only: a call
    of another function, or any node that is neither a list nor a map,
    stops the search. *)
Theorem hasStringFormatAncestor_iff (e : NavigableExpr) :
  hasStringFormatAncestor e = true
  <-> exists aggregates above,
      ancestors e = aggregates ++ CallKind "format" :: above
      /\ Forall (fun kind => isAggregate kind = true) aggregates.
Proof.
  revert e. fix IH 1.
  intros [kind [parent |]]; cbn [hasStringFormatAncestor ancestors].
  - assert (Hup : forall agg, isAggregate agg = true -> Kind parent = agg ->
               (hasStringFormatAncestor parent = true
                <-> exists aggregates above,
                    agg :: ancestors parent
                    = aggregates ++ CallKind "format" :: above
                    /\ Forall (fun kind => isAggregate kind = true) aggregates)).
    { intros agg Hagg Hkind. rewrite (IH parent). split.
      - intros (aggregates & above & Hanc & Hall).
        exists (agg :: aggregates), above. rewrite Hanc.
        split; [reflexivity | constructor; assumption].
      - intros ([| first aggregates] & above & Hanc & Hall); cbn in Hanc.
        + injection Hanc as Hhead _. rewrite Hhead in Hagg. discriminate Hagg.
        + injection Hanc as _ Htail. inversion Hall; subst.
          exists aggregates, above. split; [exact Htail | assumption]. }
    destruct (Kind parent) as [functionName | | |] eqn:Hkind.
    + destruct (String.eqb functionName "format") eqn:Hname.
      * apply String.eqb_eq in Hname as ->. split; [| reflexivity].
        intros _. exists [], (ancestors parent). split; [reflexivity | constructor].
      * apply String.eqb_neq in Hname. split; [discriminate |].
        intros ([| first aggregates] & above & Hanc & Hall); cbn in Hanc.
        -- inversion Hanc; subst. contradiction.
        -- inversion Hanc; subst. inversion Hall; subst. not_aggregate.
    + now apply Hup.
    + now apply Hup.
    + split; [discriminate |].
      intros ([| first aggregates] & above & Hanc & Hall); cbn in Hanc.
      * discriminate Hanc.
      * inversion Hanc; subst. inversion Hall; subst. not_aggregate.
  - split; [discriminate |].
    intros ([| first aggregates] & above & Hanc & _); discriminate Hanc.
Qed.

End celFacts.
